(** * graphLoader.js: version resolution, position and link decoding, load pipeline

    A shallow embedding of [src/galaxy/service/graphLoader.js] and the
    properties of its decoders.

    Conventions of the embedding:
    - a JavaScript number that the code only ever uses as an exact integer
      (an [Int32Array] element, [-(v) - 1], [v - 1]) is a [Z]; no operation of
      the link decoder leaves the range where doubles are exact;
    - [outLinks] and [inLinks] are JavaScript arrays used as sparse maps from
      a key to an inner array; they are [gmap]s keyed by [Z] (the code writes
      [inLinks[-1]] on a zero token, a property and not an index, so keys are
      not restricted to naturals);
    - the inner arrays of [outLinks] are objects shared with the local
      variable [lastArray]; they live in an explicit store and [outLinks]
      holds references into it. *)

From Stdlib Require Import Init.Byte.
From Stdlib Require Strings.Byte.
From stdpp Require Import base numbers option list gmap fin_maps strings.

Open Scope Z_scope.

(** ** Values *)

(** [srcIndex] is a hoisted [var]: [undefined] until the first negative token
    assigns it a number. *)
Inductive jsval : Type :=
  | undefined
  | num (n : Z).

#[global] Instance jsval_eq_dec : EqDecision jsval.
Proof. solve_decision. Defined.

(** Range of an [Int32Array] element. *)
Definition int32 (v : Z) : Prop := - 2 ^ 31 <= v < 2 ^ 31.

#[global] Instance int32_dec v : Decision (int32 v).
Proof. unfold int32. apply _. Defined.

(** ** Failures

    A rejected promise or a thrown exception carries one of these.  The first
    three are what the code can meet; [DataMalformed] is the decode error the
    specification names, which no statement of the source raises. *)
Inductive Error : Type :=
  | TransportFailure (reason : string)
  | RangeError
  | TypeError
  | DataMalformed.

#[global] Instance Error_eq_dec : EqDecision Error.
Proof. solve_decision. Defined.

(** A computation that returns or throws. *)
Definition result (A : Type) : Type := Error + A.

Definition result_bind {A B} (r : result A) (f : A → result B) : result B :=
  match r with
  | inl e => inl e
  | inr a => f a
  end.

(** ** [new Int32Array(buffer)]

    The response of an [arraybuffer] request is a sequence of bytes.  The
    constructor throws a [RangeError] when the byte length is not a multiple
    of 4; otherwise element [i] reads bytes [4i .. 4i+3] in the byte order of
    the host, little-endian on every platform browsers run on. *)

Module TypedArray.

Definition byte_val (b : byte) : Z := Z.of_N (Strings.Byte.to_N b).

(** Two's complement reading of the low 32 bits. *)
Definition to_int32 (u : Z) : Z :=
  let m := u mod 2 ^ 32 in
  if decide (m < 2 ^ 31) then m else m - 2 ^ 32.

Definition int32_of_bytes (b0 b1 b2 b3 : byte) : Z :=
  to_int32 (byte_val b0 + 2 ^ 8 * byte_val b1 + 2 ^ 16 * byte_val b2
            + 2 ^ 24 * byte_val b3).

Fixpoint elements (buffer : list byte) : list Z :=
  match buffer with
  | b0 :: b1 :: b2 :: b3 :: rest => int32_of_bytes b0 b1 b2 b3 :: elements rest
  | _ => []
  end.

Definition Int32Array (buffer : list byte) : result (list Z) :=
  if decide (length buffer mod 4 = 0)%nat then inr (elements buffer)
  else inl RangeError.

(** The bytes of an array of 32-bit integers, to build buffers from token
    streams. *)
Definition byte_of (z : Z) : byte :=
  default x00 (Strings.Byte.of_N (Z.to_N (z mod 2 ^ 8))).

Definition bytes_of_int32 (v : Z) : list byte :=
  [byte_of v; byte_of (v / 2 ^ 8); byte_of (v / 2 ^ 16); byte_of (v / 2 ^ 24)].

Definition buffer_of (a : list Z) : list byte :=
  concat (bytes_of_int32 <$> a).

End TypedArray.

Import TypedArray.

(** ** The position decoder, [setPositions] (lines 92-99) *)

Module Positions.

Section Scale.

(** [scaled x] is the value an [Int32Array] element holding [x] has after
    [positions[i] *= scaleFactor]: the double product converted back to 32
    bits.  [scaleFactor] comes from [appConfig.getScaleFactor()], which is
    not part of this file. *)
Variable scaled : Z → Z.

(** The [for] loop from index [i], with [n] elements left to visit. *)
Fixpoint scale_from (n i : nat) (positions : list Z) : list Z :=
  match n with
  | O => positions
  | S n => scale_from n (S i) (alter scaled i positions)
  end.

Definition setPositions (buffer : list byte) : result (list Z) :=
  result_bind (Int32Array buffer)
    (λ positions, inr (scale_from (length positions) 0 positions)).

End Scale.

(** For an integral scale factor [k] small enough that the double product
    is exact (at most 2^21 in magnitude), the element becomes the low 32
    bits of the product. *)
Definition scaled_by (k : Z) (x : Z) : Z := to_int32 (x * k).

End Positions.

Import Positions.

(** ** The link decoder, [setLinks] (lines 108-129) *)

Module Links.

(** A reference to an array created by an array literal of [setLinks]. *)
Abbreviation loc := nat (only parsing).

Record LinkState : Type := mkLinkState {
  (** the arrays created by [[]] on lines 110 and 116, in creation order;
      an array that is no longer reachable stays in the store *)
  heap : list (list Z);
  (** [outLinks]: key to reference *)
  outLinks : gmap Z loc;
  (** [inLinks]: key to inner array; no variable aliases these arrays *)
  inLinks : gmap Z (list jsval);
  (** the local [lastArray], a reference *)
  lastArray : loc;
  (** the local [srcIndex] *)
  srcIndex : jsval;
}.

(** The closure variables as [loadGraph] creates them (lines 36-37):
    [outLinks = []], [inLinks = []]; the locals are not yet assigned. *)
Definition fresh : LinkState :=
  {| heap := []; outLinks := ∅; inLinks := ∅; lastArray := 0%nat; srcIndex := undefined |}.

(** Lines 110-111: [var lastArray = []; outLinks[0] = lastArray;] *)
Definition setLinks_start (st : LinkState) : LinkState :=
  let l := length (heap st) in
  {| heap := heap st ++ [[]];
     outLinks := <[0 := l]> (outLinks st);
     inLinks := inLinks st;
     lastArray := l;
     srcIndex := undefined |}.

(** Lines 120-124: create [inLinks[toNode]] holding [srcIndex], or push. *)
Definition inLinks_add (toNode : Z) (src : jsval) (m : gmap Z (list jsval))
  : gmap Z (list jsval) :=
  match m !! toNode with
  | None => <[toNode := [src]]> m
  | Some a => <[toNode := a ++ [src]]> m
  end.

(** One iteration of the loop, lines 114-125. *)
Definition setLinks_step (st : LinkState) (v : Z) : LinkState :=
  if decide (v < 0) then
    let src := - v - 1 in
    let l := length (heap st) in
    {| heap := heap st ++ [[]];
       outLinks := <[src := l]> (outLinks st);
       inLinks := inLinks st;
       lastArray := l;
       srcIndex := num src |}
  else
    let toNode := v - 1 in
    {| heap := alter (λ a, a ++ [toNode]) (lastArray st) (heap st);
       outLinks := outLinks st;
       inLinks := inLinks_add toNode (srcIndex st) (inLinks st);
       lastArray := lastArray st;
       srcIndex := srcIndex st |}.

(** The loop over the [Int32Array] [links], after the two opening statements. *)
Definition setLinks_from (st : LinkState) (links : list Z) : LinkState :=
  fold_left setLinks_step links (setLinks_start st).

(** [setLinks] on the contents of the [Int32Array], in a fresh [loadGraph]. *)
Definition setLinks (links : list Z) : LinkState :=
  setLinks_from fresh links.

(** [setLinks] on the response of the [links.bin] request. *)
Definition setLinks_buffer (buffer : list byte) : result LinkState :=
  result_bind (Int32Array buffer) (λ links, inr (setLinks links)).

(** What a reader of the result sees: [outLinks[k]], dereferenced. *)
Definition out_get (st : LinkState) (k : Z) : option (list Z) :=
  outLinks st !! k ≫= λ l, heap st !! l.

(** The whole of [outLinks] as a map from key to array contents. *)
Definition out_view (st : LinkState) : gmap Z (list Z) :=
  omap (λ l, heap st !! l) (outLinks st).

(** [outLinks[k]] and [inLinks[k]] read as lists, a missing entry as empty. *)
Definition out_list (st : LinkState) (k : Z) : list Z := default [] (out_get st k).
Definition in_list (st : LinkState) (k : Z) : list jsval := default [] (inLinks st !! k).

End Links.

Import Links.

(** ** The loop without the store

    The same loop read on array contents: [outLinks] maps a key directly to
    the contents of its array, and a push goes to the entry of the active key
    (0 before the first negative token, [srcIndex] afterwards).  It is proved
    equal to the store model in [setLinks_view]. *)

Module Flat.

Record View : Type := mkView {
  v_out : gmap Z (list Z);
  v_in : gmap Z (list jsval);
  v_src : jsval;
}.

(** The key under which [lastArray] is stored. *)
Definition active (src : jsval) : Z :=
  match src with
  | undefined => 0
  | num s => s
  end.

Definition start : View :=
  {| v_out := {[0 := []]}; v_in := ∅; v_src := undefined |}.

Definition step (w : View) (v : Z) : View :=
  if decide (v < 0) then
    {| v_out := <[- v - 1 := []]> (v_out w); v_in := v_in w; v_src := num (- v - 1) |}
  else
    {| v_out := alter (λ a, a ++ [v - 1]) (active (v_src w)) (v_out w);
       v_in := inLinks_add (v - 1) (v_src w) (v_in w);
       v_src := v_src w |}.

Definition run (links : list Z) : View := fold_left step links start.

End Flat.

Definition view (st : LinkState) : Flat.View :=
  {| Flat.v_out := out_view st; Flat.v_in := inLinks st; Flat.v_src := srcIndex st |}.

(** Well-formed stores: [lastArray] is the array of the active key, every
    reference is allocated, and no two keys share an array. *)
Record wf (st : LinkState) : Prop := mkWf {
  wf_last : outLinks st !! Flat.active (srcIndex st) = Some (lastArray st);
  wf_bound : ∀ k l, outLinks st !! k = Some l → (l < length (heap st))%nat;
  wf_inj : ∀ k1 k2 l,
    outLinks st !! k1 = Some l → outLinks st !! k2 = Some l → k1 = k2;
}.

(** ** Reading a token stream

    The notions the properties are stated with, computed from the tokens
    alone. *)

(** Source ids declared by the negative tokens, in stream order. *)
Definition declared (links : list Z) : list Z :=
  (λ v, - v - 1) <$> filter (λ v, v < 0) links.

(** Decremented targets of the non-negative tokens, in stream order. *)
Definition targets (links : list Z) : list Z :=
  (λ v, v - 1) <$> filter (λ v, 0 ≤ v) links.

(** Number of occurrences of [x] in [l]. *)
Definition occ `{EqDecision A} (x : A) (l : list A) : nat :=
  length (filter (λ y, y = x) l).

(** The stream starts with an edge token, before any source is declared. *)
Definition begins_non_negative (links : list Z) : Prop :=
  match links with
  | v :: _ => 0 ≤ v
  | [] => False
  end.

(** The stream starts with a source declaration. *)
Definition begins_negative (links : list Z) : Prop :=
  match links with
  | v :: _ => v < 0
  | [] => False
  end.

(** Forward and backward mappings agree: [t] occurs in [outLinks[s]] as
    often as [s] occurs in [inLinks[t]]. *)
Definition consistent (st : LinkState) : Prop :=
  ∀ s t : Z, occ t (out_list st s) = occ (num s) (in_list st t).

(** *** Building a stream from per-source target lists *)

(** A pair [(sourceId, targets)] is written as the token [-(sourceId+1)]
    followed by [target+1] for each target. *)
Definition encode_pair (p : Z * list Z) : list Z :=
  - (p.1 + 1) :: ((λ t, t + 1) <$> p.2).

Definition encode (pairs : list (Z * list Z)) : list Z :=
  concat (encode_pair <$> pairs).

(** The edges of the pairs, in stream order. *)
Definition edges (pairs : list (Z * list Z)) : list (Z * Z) :=
  concat ((λ p : Z * list Z, (λ t, (p.1, t)) <$> p.2) <$> pairs).

(** The sources of the edges into [t], in stream order. *)
Definition sources_of (t : Z) (es : list (Z * Z)) : list jsval :=
  (λ e : Z * Z, num e.1) <$> filter (λ e : Z * Z, e.2 = t) es.

(** The edges of one source, added to [inLinks]. *)
Definition add_edges (s : Z) (ts : list Z) (i : gmap Z (list jsval))
  : gmap Z (list jsval) :=
  fold_left (λ i t, inLinks_add t (num s) i) ts i.

(** Node ids are zero-based. *)
Definition node_ids (pairs : list (Z * list Z)) : Prop :=
  Forall (λ p : Z * list Z, 0 ≤ p.1 ∧ Forall (λ t, 0 ≤ t) p.2) pairs.

(** What holds after a prefix that declares no source twice and does not
    start with an edge token. *)
Record inv (links : list Z) (w : Flat.View) : Prop := mkInv {
  inv_consistent : ∀ s t : Z,
    occ t (default [] (Flat.v_out w !! s)) =
    occ (num s) (default [] (Flat.v_in w !! t));
  inv_undeclared : ∀ s : Z,
    s ∉ declared links → default [] (Flat.v_out w !! s) = [];
  inv_src : links ≠ [] → ∃ s, Flat.v_src w = num s ∧ s ∈ declared links;
}.

(** The pairs that list source [s], in order. *)
Definition listings (s : Z) (pairs : list (Z * list Z)) : list (Z * list Z) :=
  filter (λ p : Z * list Z, p.1 = s) pairs.

(** The per-source target list of [s]: every target the pairs give to [s],
    in order. *)
Definition targets_of (s : Z) (pairs : list (Z * list Z)) : list Z :=
  concat (snd <$> listings s pairs).

(** The target list of the last pair that lists [s]. *)
Definition last_targets (s : Z) (pairs : list (Z * list Z)) : option (list Z) :=
  snd <$> last (listings s pairs).

(** Number of forward-edge entries held by the lists of a decoded
    [outLinks]. *)
Definition entries (o : gmap Z (list Z)) : nat :=
  map_fold (λ _ l n, (length l + n)%nat) 0%nat o.

(** ** Version resolution, [setManifest] and [getFromAppConfig] (lines 65-83) *)

Module Version.

(** [manifest.json]: [{ last: string, all: array<string> }]; the code guards
    against a missing [all]. *)
Record Manifest : Type := mkManifest {
  last : string;
  all : option (list string);
}.

(** Truthiness of a string: every string but the empty one. *)
Definition truthy (v : string) : bool :=
  match v with
  | EmptyString => false
  | String _ _ => true
  end.

(** [Array.prototype.indexOf]: the first index holding [x], or -1. *)
Fixpoint indexOf_from (i : Z) (l : list string) (x : string) : Z :=
  match l with
  | [] => -1
  | y :: l => if decide (y = x) then i else indexOf_from (i + 1) l x
  end.

Definition indexOf (l : list string) (x : string) : Z := indexOf_from 0 l x.

(** Lines 72-83.  [appConfigVersion] is what [appConfig.getManifestVersion()]
    returned ([None] for [undefined]); [manifest] is the response, [None] for
    [null].  The result [None] is the [undefined] of the bare [return] and of
    falling off the end. *)
Definition getFromAppConfig (appConfigVersion : option string)
    (manifest : option Manifest) : option string :=
  let approvedVersions := manifest ≫= all in
  match approvedVersions, appConfigVersion with
  | Some approved, Some v =>
      if truthy v then
        if decide (0 ≤ indexOf approved v) then Some v else None
      else None
  | _, _ => None
  end.

(** [manifest.last], a [TypeError] on [null]. *)
Definition manifest_last (manifest : option Manifest) : result string :=
  match manifest with
  | Some m => inr (last m)
  | None => inl TypeError
  end.

(** Line 67: [getFromAppConfig(manifest) || manifest.last]. *)
Definition version_of (appConfigVersion : option string)
    (manifest : option Manifest) : result string :=
  match getFromAppConfig appConfigVersion manifest with
  | Some v => if truthy v then inr v else manifest_last manifest
  | None => manifest_last manifest
  end.

End Version.

(** ** The load pipeline, [loadGraph] (lines 34-57, 59-63, 85-90, 101-106, 131-141) *)

Module Pipeline.

(** The four files of a graph, in the order [loadGraph] asks for them. *)
Inductive File : Type := ManifestFile | PositionsFile | LinksFile | LabelsFile.

#[global] Instance File_eq_dec : EqDecision File.
Proof. solve_decision. Defined.

(** What the run does to its collaborators, in order: a request issued (with
    the call site that issued it), the version written back to [appConfig],
    an event fired on [appEvents]. *)
Inductive Event : Type :=
  | Requested (f : File) (url : string)
  | ManifestVersionSet (version : string)
  | PositionsDownloaded (positions : list Z)
  | LinksDownloaded (outLinks : gmap Z (list Z)) (inLinks : gmap Z (list jsval))
  | LabelsDownloaded (labels : list string).

(** The argument of [createGraph]. *)
Record GraphData : Type := mkGraphData {
  g_positions : option (list Z);
  g_labels : option (list string);
  g_outLinks : gmap Z (list Z);
  g_inLinks : gmap Z (list jsval);
}.

(** The variables of the [loadGraph] closure, the version stored in
    [appConfig], and the log of events. *)
Record State : Type := mkState {
  manifest : option Version.Manifest;
  galaxyEndpoint : string;
  positions : option (list Z);
  labels : option (list string);
  links : LinkState;
  manifestVersion : option string;
  events : list Event;
}.

(** A promise: run from a state, it settles with a value or an error. *)
Definition Promise (A : Type) : Type := State → result A * State.

(** [p.then(f)] with a fulfilment handler only: a rejection skips [f]. *)
Definition then_ {A B} (p : Promise A) (f : A → Promise B) : Promise B :=
  λ s, match p s with
       | (inl e, s') => (inl e, s')
       | (inr a, s') => f a s'
       end.

Notation "p >>= f" := (then_ p f) (at level 50, left associativity).

Definition log (ev : Event) (s : State) : State :=
  {| manifest := manifest s; galaxyEndpoint := galaxyEndpoint s;
     positions := positions s; labels := labels s; links := links s;
     manifestVersion := manifestVersion s; events := events s ++ [ev] |}.

(** The files the logged requests asked for. *)
Definition requested (evs : list Event) : list File :=
  omap (λ ev, match ev with Requested f _ => Some f | _ => None end) evs.

(** A step issues exactly one request, the one for its file, whether it
    succeeds or fails. *)
Definition issues (f : File) (stage : unit → Promise unit) : Prop :=
  ∀ s r s', stage tt s = (r, s') →
    ∃ evs, events s' = events s ++ evs ∧ requested evs = [f].

Section Run.

(** The collaborators that are not in this file: [config.dataUrl], the
    rendering of [+new Date()], what [request] settles with for a URL and
    response type, the multiplication by [appConfig.getScaleFactor()], and
    [createGraph].  The [progress] callback only reports on a request in
    flight and is left out. *)
Variable dataUrl : string.
Variable now : string.
Variable request_manifest : string → result (option Version.Manifest).
Variable request_arraybuffer : string → result (list byte).
Variable request_labels : string → result (list string).
Variable scaled : Z → Z.
Variable Graph : Type.
Variable createGraph : GraphData → Graph.

(** [request(url, ...)]: the request is issued, then settles. *)
Definition request {A} (f : File) (respond : string → result A) (url : string)
  : Promise A :=
  λ s, (respond url, log (Requested f url) s).

(** Lines 65-70. *)
Definition setManifest (response : option Version.Manifest) : Promise unit :=
  λ s,
    let s := {| manifest := response; galaxyEndpoint := galaxyEndpoint s;
                positions := positions s; labels := labels s; links := links s;
                manifestVersion := manifestVersion s; events := events s |} in
    match Version.version_of (manifestVersion s) response with
    | inl e => (inl e, s)
    | inr version =>
        (inr tt,
         log (ManifestVersionSet version)
           {| manifest := manifest s;
              galaxyEndpoint := galaxyEndpoint s +:+ "/" +:+ version;
              positions := positions s; labels := labels s; links := links s;
              manifestVersion := Some version; events := events s |})
    end.

(** Lines 59-63. *)
Definition loadManifest (_ : unit) : Promise unit :=
  λ s, (request ManifestFile request_manifest
          (galaxyEndpoint s +:+ "/manifest.json?nocache=" +:+ now)
        >>= setManifest) s.

(** Lines 92-99 as the handler of the positions request: the decoder, the
    assignment to [positions] and the event. *)
Definition setPositions_handler (buffer : list byte) : Promise unit :=
  λ s,
    match Positions.setPositions scaled buffer with
    | inl e => (inl e, s)
    | inr a =>
        (inr tt,
         log (PositionsDownloaded a)
           {| manifest := manifest s; galaxyEndpoint := galaxyEndpoint s;
              positions := Some a; labels := labels s; links := links s;
              manifestVersion := manifestVersion s; events := events s |})
    end.

(** Lines 85-90. *)
Definition loadPositions (_ : unit) : Promise unit :=
  λ s, (request PositionsFile request_arraybuffer
          (galaxyEndpoint s +:+ "/positions.bin")
        >>= setPositions_handler) s.

(** Lines 108-129 as the handler of the links request: the decoder on the
    closure's [outLinks] and [inLinks], and the event. *)
Definition setLinks_handler (buffer : list byte) : Promise unit :=
  λ s,
    match Int32Array buffer with
    | inl e => (inl e, s)
    | inr a =>
        let st := setLinks_from (links s) a in
        (inr tt,
         log (LinksDownloaded (out_view st) (inLinks st))
           {| manifest := manifest s; galaxyEndpoint := galaxyEndpoint s;
              positions := positions s; labels := labels s; links := st;
              manifestVersion := manifestVersion s; events := events s |})
    end.

(** Lines 101-106. *)
Definition loadLinks (_ : unit) : Promise unit :=
  λ s, (request LinksFile request_arraybuffer
          (galaxyEndpoint s +:+ "/links.bin")
        >>= setLinks_handler) s.

(** Lines 138-141. *)
Definition setLabels (data : list string) : Promise unit :=
  λ s,
    (inr tt,
     log (LabelsDownloaded data)
       {| manifest := manifest s; galaxyEndpoint := galaxyEndpoint s;
          positions := positions s; labels := Some data; links := links s;
          manifestVersion := manifestVersion s; events := events s |}).

(** Lines 131-136. *)
Definition loadLabels (_ : unit) : Promise unit :=
  λ s, (request LabelsFile request_labels
          (galaxyEndpoint s +:+ "/labels.json")
        >>= setLabels) s.

(** Lines 50-57. *)
Definition convertToGraph (_ : unit) : Promise Graph :=
  λ s,
    (inr (createGraph {| g_positions := positions s; g_labels := labels s;
                         g_outLinks := out_view (links s);
                         g_inLinks := inLinks (links s) |}), s).

(** The closure at the start of [loadGraph(name, progress)], lines 35-42;
    [pinned] is the version [appConfig] holds. *)
Definition init (name : string) (pinned : option string) : State :=
  {| manifest := None; galaxyEndpoint := dataUrl +:+ name;
     positions := None; labels := None; links := fresh;
     manifestVersion := pinned; events := [] |}.

(** Lines 44-48. *)
Definition chain : Promise Graph :=
  loadManifest tt >>= loadPositions >>= loadLinks >>= loadLabels
    >>= convertToGraph.

Definition loadGraph (name : string) (pinned : option string)
  : result Graph * State :=
  chain (init name pinned).

(** The fetch-and-decode steps in order, and a run of some of them. *)
Definition stages : list (unit → Promise unit) :=
  [loadManifest; loadPositions; loadLinks; loadLabels].

Definition files : list File :=
  [ManifestFile; PositionsFile; LinksFile; LabelsFile].

Fixpoint run_stages (l : list (unit → Promise unit)) : Promise unit :=
  match l with
  | [] => λ s, (inr tt, s)
  | stage :: l => stage tt >>= λ _, run_stages l
  end.

End Run.

End Pipeline.

(** *** A sample server

    A data store that serves the manifest, the positions and the labels of
    the graph ["g"] and fails on the links of its version ["v1"]. *)

Module Sample.

Definition manifest_g : Version.Manifest :=
  {| Version.last := "v2"; Version.all := Some ["v1"; "v2"] |}.

Definition serve_manifest (url : string) : result (option Version.Manifest) :=
  inr (Some manifest_g).

Definition serve_arraybuffer (url : string) : result (list byte) :=
  if decide (url = "data/g/v1/links.bin") then inl (TransportFailure "503")
  else inr (buffer_of [10; 20; 30]).

Definition serve_labels (url : string) : result (list string) :=
  inr ["a"].

Definition load (name : string) (pinned : option string)
  : result Pipeline.GraphData * Pipeline.State :=
  Pipeline.loadGraph "data/" "0" serve_manifest serve_arraybuffer
    serve_labels (scaled_by 1) Pipeline.GraphData id name pinned.

End Sample.

(** *** The shape of a run

    The events of a run with their payloads dropped, and the sequence of a
    run in which every step succeeds. *)

Module Log.

Inductive Tag : Type :=
  | TRequest (f : Pipeline.File)
  | TVersion
  | TPositions
  | TLinks
  | TLabels.

#[global] Instance Tag_eq_dec : EqDecision Tag.
Proof. solve_decision. Defined.

Definition tag (ev : Pipeline.Event) : Tag :=
  match ev with
  | Pipeline.Requested f _ => TRequest f
  | Pipeline.ManifestVersionSet _ => TVersion
  | Pipeline.PositionsDownloaded _ => TPositions
  | Pipeline.LinksDownloaded _ _ => TLinks
  | Pipeline.LabelsDownloaded _ => TLabels
  end.

Definition full : list Tag :=
  [TRequest Pipeline.ManifestFile; TVersion;
   TRequest Pipeline.PositionsFile; TPositions;
   TRequest Pipeline.LinksFile; TLinks;
   TRequest Pipeline.LabelsFile; TLabels].

End Log.

(** *** More sample servers

    One that serves every file of the graph ["g"], and one whose manifest
    response is [null]. *)

Module Served.

Definition serve_arraybuffer (url : string) : result (list byte) :=
  if decide (url = "data/g/v1/links.bin") then inr (buffer_of [-1; 2; 3; -2; 1])
  else inr (buffer_of [10; 20; 30]).

Definition serve_null (url : string) : result (option Version.Manifest) :=
  inr None.

Definition load (name : string) (pinned : option string)
  : result Pipeline.GraphData * Pipeline.State :=
  Pipeline.loadGraph "data/" "0" Sample.serve_manifest serve_arraybuffer
    Sample.serve_labels (scaled_by 1) Pipeline.GraphData id name pinned.

Definition load_null (name : string) (pinned : option string)
  : result Pipeline.GraphData * Pipeline.State :=
  Pipeline.loadGraph "data/" "0" serve_null serve_arraybuffer
    Sample.serve_labels (scaled_by 1) Pipeline.GraphData id name pinned.

End Served.

(** * Supporting facts *)

(** ** Store model and flat model agree *)

Lemma wf_start : wf (setLinks_start fresh).
Proof.
  split; simpl.
  - by rewrite lookup_insert_eq.
  - intros k l. rewrite lookup_insert. case_decide; [|by rewrite lookup_empty].
    intros [= <-]. lia.
  - intros k1 k2 l. rewrite !lookup_insert.
    repeat case_decide; rewrite ?lookup_empty; congruence.
Qed.

Lemma setLinks_step_wf st v : wf st → wf (setLinks_step st v).
Proof.
  intros [Hlast Hbound Hinj]. unfold setLinks_step.
  case_decide as Hv; split; simpl; try done.
  - by rewrite lookup_insert_eq.
  - intros k l. rewrite length_app; simpl. rewrite lookup_insert.
    case_decide; [intros [= <-]; lia|]. intros Hk. apply Hbound in Hk. lia.
  - intros k1 k2 l. rewrite !lookup_insert.
    repeat case_decide; try congruence.
    + intros [= <-] Hk. apply Hbound in Hk. lia.
    + intros Hk [= <-]. apply Hbound in Hk. lia.
    + apply Hinj.
  - intros k l Hk. rewrite length_alter. eauto.
Qed.

Lemma out_view_lookup st k : out_view st !! k = out_get st k.
Proof. unfold out_view, out_get. by rewrite lookup_omap. Qed.

Lemma setLinks_step_view st v :
  wf st → view (setLinks_step st v) = Flat.step (view st) v.
Proof.
  intros [Hlast Hbound Hinj]. unfold setLinks_step, Flat.step, view.
  case_decide as Hv; simpl; f_equal.
  - apply map_eq. intros k. rewrite out_view_lookup. unfold out_get; simpl.
    rewrite !lookup_insert. case_decide; simpl.
    + by rewrite lookup_app_r, Nat.sub_diag.
    + rewrite out_view_lookup. unfold out_get.
      destruct (outLinks st !! k) as [l|] eqn:Hk; simpl; [|done].
      apply Hbound in Hk. by rewrite lookup_app_l.
  - apply map_eq. intros k. rewrite out_view_lookup. unfold out_get; simpl.
    destruct (decide (k = Flat.active (srcIndex st))) as [->|Hne].
    + rewrite lookup_alter_eq, out_view_lookup. unfold out_get.
      rewrite Hlast; simpl. by rewrite list_lookup_alter_eq.
    + rewrite lookup_alter_ne, out_view_lookup by done. unfold out_get.
      destruct (outLinks st !! k) as [l|] eqn:Hk; simpl; [|done].
      rewrite list_lookup_alter_ne; [done|].
      intros <-. apply Hne. by eapply Hinj.
Qed.

Lemma view_start : view (setLinks_start fresh) = Flat.start.
Proof.
  unfold view, Flat.start; simpl. by f_equal.
Qed.

Lemma fold_step_wf links st :
  wf st → wf (fold_left setLinks_step links st).
Proof.
  revert st. induction links as [|v links IH]; intros st Hst; simpl; [done|].
  apply IH. by apply setLinks_step_wf.
Qed.

Lemma fold_step_view links st :
  wf st →
  view (fold_left setLinks_step links st) = fold_left Flat.step links (view st).
Proof.
  revert st. induction links as [|v links IH]; intros st Hst; simpl; [done|].
  rewrite IH by (by apply setLinks_step_wf). by rewrite setLinks_step_view.
Qed.

Lemma setLinks_wf links : wf (setLinks links).
Proof. apply fold_step_wf, wf_start. Qed.

(** The store model, read through its references, is the flat model. *)
Lemma setLinks_view links : view (setLinks links) = Flat.run links.
Proof.
  unfold setLinks, setLinks_from, Flat.run.
  rewrite fold_step_view by apply wf_start. by rewrite view_start.
Qed.

(** ** Typed arrays *)

Lemma byte_val_byte_of z : byte_val (byte_of z) = z mod 2 ^ 8.
Proof.
  unfold byte_val, byte_of.
  assert (0 ≤ z mod 2 ^ 8 < 2 ^ 8) as Hz by (apply Z.mod_pos_bound; lia).
  destruct (Strings.Byte.of_N (Z.to_N (z mod 2 ^ 8))) as [b|] eqn:Hb; simpl.
  - apply Strings.Byte.to_of_N in Hb. rewrite Hb. lia.
  - apply Strings.Byte.of_N_None_iff in Hb. lia.
Qed.

Lemma to_int32_id v : int32 v → to_int32 v = v.
Proof.
  unfold int32, to_int32. intros Hv. simpl.
  case_decide as Hm; Z.div_mod_to_equations; lia.
Qed.

Lemma to_int32_mod u : to_int32 (u mod 2 ^ 32) = to_int32 u.
Proof. unfold to_int32. by rewrite Zmod_mod. Qed.

Lemma int32_of_bytes_of v :
  int32 v →
  match bytes_of_int32 v with
  | [b0; b1; b2; b3] => int32_of_bytes b0 b1 b2 b3 = v
  | _ => False
  end.
Proof.
  intros Hv. unfold bytes_of_int32, int32_of_bytes.
  rewrite !byte_val_byte_of.
  rewrite <- (to_int32_id v Hv) at 5. rewrite <- (to_int32_mod v). f_equal.
  Z.div_mod_to_equations. lia.
Qed.

Lemma elements_buffer_of a : Forall int32 a → elements (buffer_of a) = a.
Proof.
  induction 1 as [|v a Hv _ IH]; [done|].
  unfold buffer_of in *. rewrite fmap_cons. simpl.
  pose proof (int32_of_bytes_of v Hv) as Hb. unfold bytes_of_int32 in *.
  simpl. by rewrite Hb, IH.
Qed.

Lemma length_buffer_of a : length (buffer_of a) = (4 * length a)%nat.
Proof.
  unfold buffer_of. induction a as [|v a IH]; [done|].
  rewrite fmap_cons. simpl. rewrite IH. lia.
Qed.

(** A buffer that holds 32-bit integers is read back as those integers. *)
Lemma Int32Array_buffer_of a : Forall int32 a → Int32Array (buffer_of a) = inr a.
Proof.
  intros Ha. unfold Int32Array. rewrite length_buffer_of.
  rewrite decide_True by (by rewrite Nat.mul_comm, Nat.Div0.mod_mul).
  by rewrite elements_buffer_of.
Qed.

(** The constructor succeeds exactly on byte lengths that are multiples of 4. *)
Lemma Int32Array_RangeError buffer :
  Int32Array buffer = inl RangeError ↔ (length buffer mod 4 ≠ 0)%nat.
Proof. unfold Int32Array. case_decide; split; intros; congruence. Qed.

Lemma length_elements buffer :
  (length buffer mod 4 = 0)%nat →
  (3 * length buffer = 12 * length (elements buffer))%nat.
Proof.
  intros Hm. apply Nat.Div0.mod_divides in Hm as [n Hn]. revert buffer Hn.
  induction n as [|n IH]; intros buffer Hn.
  - destruct buffer; [done|simpl in Hn; lia].
  - do 4 (destruct buffer as [|? buffer]; [simpl in Hn; lia|]).
    simpl in *. specialize (IH buffer ltac:(lia)). lia.
Qed.

(** ** The position loop *)

Lemma scale_from_lookup scaled n i (l : list Z) j :
  scale_from scaled n i l !! j =
  if decide (i ≤ j < i + n)%nat then scaled <$> l !! j else l !! j.
Proof.
  revert i l. induction n as [|n IH]; intros i l; simpl.
  - rewrite decide_False by lia. done.
  - rewrite IH. destruct (decide (j = i)) as [->|Hne].
    + rewrite decide_False, decide_True by lia. apply list_lookup_alter_eq.
    + rewrite list_lookup_alter_ne by done.
      repeat case_decide; try done; lia.
Qed.

(** The loop multiplies every element, and only that. *)
Lemma scale_from_all scaled (l : list Z) :
  scale_from scaled (length l) 0 l = scaled <$> l.
Proof.
  apply list_eq. intros j. rewrite scale_from_lookup, list_lookup_fmap.
  case_decide as Hj; [done|].
  rewrite lookup_ge_None_2 by lia. done.
Qed.

(** With scale factor 1 the positions are the integers of the buffer. *)
Lemma setPositions_scale_1 (positions : list Z) :
  Forall int32 positions →
  setPositions (scaled_by 1) (buffer_of positions) = inr positions.
Proof.
  intros Hp. unfold setPositions. rewrite Int32Array_buffer_of by done. simpl.
  rewrite scale_from_all. f_equal.
  induction Hp as [|x l Hx _ IH]; [done|].
  rewrite fmap_cons, IH. f_equal.
  unfold scaled_by. by rewrite Z.mul_1_r, to_int32_id.
Qed.

(** The only failure of the position decoder is the [RangeError] of the
    view. *)
Lemma setPositions_error scaled buffer e :
  setPositions scaled buffer = inl e → e = RangeError.
Proof.
  unfold setPositions, Int32Array. case_decide; simpl; congruence.
Qed.

(** * Properties of the position decoder *)

(** C6. A buffer of two integers, a length that is not a multiple of 3, is
    decoded: [setPositions] returns the scaled array, not [DataMalformed]. *)
Lemma C6_length_two_is_decoded :
  ¬ ((length [1; 2] mod 3 ≠ 0)%nat →
     setPositions (scaled_by 2) (buffer_of [1; 2]) = inl DataMalformed).
Proof.
  intros H.
  assert (length [1; 2] mod 3 ≠ 0)%nat as Hlen by (simpl; lia).
  specialize (H Hlen). vm_compute in H. discriminate.
Qed.

(** C6 (amended). The position decoder has no precondition on the number of
    integers: for every buffer of signed 32-bit integers, whatever its
    length, it returns the array with every element scaled, of the same
    length. *)
Theorem C6_setPositions_total (scaled : Z → Z) (positions : list Z) :
  Forall int32 positions →
  setPositions scaled (buffer_of positions) = inr (scaled <$> positions) ∧
  length (scaled <$> positions) = length positions.
Proof.
  intros Hp. unfold setPositions.
  rewrite Int32Array_buffer_of by done. simpl.
  by rewrite scale_from_all, length_fmap.
Qed.

Lemma C6_setPositions_total_witness :
  setPositions (scaled_by 2) (buffer_of [1; 2]) = inr (scaled_by 2 <$> [1; 2]) ∧
  length (scaled_by 2 <$> [1; 2]) = length [1; 2].
Proof.
  apply (C6_setPositions_total (scaled_by 2) [1; 2]).
  repeat constructor; unfold int32; lia.
Defined.

(** * Facts about the link decoder *)

Lemma setLinks_out_get links k :
  out_get (setLinks links) k = Flat.v_out (Flat.run links) !! k.
Proof. by rewrite <- setLinks_view, <- out_view_lookup. Qed.

Lemma setLinks_inLinks links :
  inLinks (setLinks links) = Flat.v_in (Flat.run links).
Proof. by rewrite <- setLinks_view. Qed.

Lemma setLinks_srcIndex links :
  srcIndex (setLinks links) = Flat.v_src (Flat.run links).
Proof. by rewrite <- setLinks_view. Qed.

Lemma out_list_run links s :
  out_list (setLinks links) s = default [] (Flat.v_out (Flat.run links) !! s).
Proof. unfold out_list. by rewrite setLinks_out_get. Qed.

Lemma in_list_run links t :
  in_list (setLinks links) t = default [] (Flat.v_in (Flat.run links) !! t).
Proof. unfold in_list. by rewrite setLinks_inLinks. Qed.

(** An entry of [outLinks] always points at an allocated array. *)
Lemma out_get_is_Some st k :
  wf st → is_Some (out_get st k) ↔ is_Some (outLinks st !! k).
Proof.
  intros Hwf. unfold out_get.
  destruct (outLinks st !! k) as [l|] eqn:Hk; simpl.
  - split; [eauto|]. intros _. apply lookup_lt_is_Some. by eapply wf_bound.
  - done.
Qed.

Lemma out_get_None links k :
  out_get (setLinks links) k = None ↔ outLinks (setLinks links) !! k = None.
Proof.
  rewrite !eq_None_not_Some, out_get_is_Some by apply setLinks_wf. done.
Qed.

(** ** The flat loop, token by token *)

Lemma run_snoc links v :
  Flat.run (links ++ [v]) = Flat.step (Flat.run links) v.
Proof. unfold Flat.run. by rewrite fold_left_app. Qed.

Lemma declared_snoc links v :
  declared (links ++ [v]) =
  declared links ++ (if decide (v < 0) then [- v - 1] else []).
Proof.
  unfold declared. rewrite filter_app, fmap_app. f_equal.
  rewrite filter_cons, filter_nil. by case_decide.
Qed.

Lemma targets_snoc links v :
  targets (links ++ [v]) =
  targets links ++ (if decide (v < 0) then [] else [v - 1]).
Proof.
  unfold targets. rewrite filter_app, fmap_app. f_equal.
  rewrite filter_cons, filter_nil. repeat case_decide; try done; lia.
Qed.

Lemma inLinks_add_lookup t x (m : gmap Z (list jsval)) k :
  inLinks_add t x m !! k =
  if decide (k = t) then Some (default [] (m !! t) ++ [x]) else m !! k.
Proof.
  unfold inLinks_add. case_decide as Hk.
  - subst k. destruct (m !! t) eqn:Ht; by rewrite lookup_insert_eq.
  - destruct (m !! t); by rewrite lookup_insert_ne.
Qed.

Lemma inLinks_add_list t x (m : gmap Z (list jsval)) k :
  default [] (inLinks_add t x m !! k) =
  default [] (m !! k) ++ (if decide (k = t) then [x] else []).
Proof.
  rewrite inLinks_add_lookup. case_decide; [by subst|by rewrite app_nil_r].
Qed.

(** [outLinks] has an entry exactly at key 0 and at the declared sources. *)
Lemma run_out_dom links k :
  is_Some (Flat.v_out (Flat.run links) !! k) ↔ k = 0 ∨ k ∈ declared links.
Proof.
  induction links as [|v links IH] using rev_ind.
  - unfold Flat.run, declared; simpl. rewrite lookup_singleton_is_Some.
    rewrite elem_of_nil. intuition congruence.
  - rewrite run_snoc, declared_snoc. unfold Flat.step.
    case_decide; simpl.
    + rewrite lookup_insert_is_Some', IH, elem_of_app, list_elem_of_singleton.
      intuition congruence.
    + rewrite lookup_alter_is_Some, IH, app_nil_r. done.
Qed.

(** [inLinks] has an entry exactly at the decremented targets. *)
Lemma run_in_dom links k :
  is_Some (Flat.v_in (Flat.run links) !! k) ↔ k ∈ targets links.
Proof.
  induction links as [|v links IH] using rev_ind.
  - unfold Flat.run, targets; simpl. rewrite lookup_empty, elem_of_nil.
    split; [by intros [? ?]|done].
  - rewrite run_snoc, targets_snoc. unfold Flat.step.
    case_decide; simpl.
    + by rewrite IH, app_nil_r.
    + rewrite inLinks_add_lookup, elem_of_app, list_elem_of_singleton.
      case_decide; [intuition eauto|]. rewrite IH. intuition congruence.
Qed.

Lemma setLinks_out_dom links k :
  is_Some (outLinks (setLinks links) !! k) ↔ k = 0 ∨ k ∈ declared links.
Proof.
  rewrite <- out_get_is_Some by apply setLinks_wf.
  rewrite setLinks_out_get. apply run_out_dom.
Qed.

Lemma setLinks_in_dom links k :
  is_Some (inLinks (setLinks links) !! k) ↔ k ∈ targets links.
Proof. rewrite setLinks_inLinks. apply run_in_dom. Qed.

Lemma fold_in_head links (w : Flat.View) k x tl :
  Flat.v_in w !! k = Some (x :: tl) →
  ∃ tl', Flat.v_in (fold_left Flat.step links w) !! k = Some (x :: tl').
Proof.
  revert w tl. induction links as [|v links IH]; intros w tl Hk; simpl; [eauto|].
  unfold Flat.step at 2. case_decide; simpl.
  - eapply IH. simpl. done.
  - destruct (decide (k = v - 1)) as [->|Hne].
    + eapply (IH _ (tl ++ [Flat.v_src w])). simpl.
      by rewrite inLinks_add_lookup, decide_True, Hk.
    + eapply IH. simpl. by rewrite inLinks_add_lookup, decide_False.
Qed.

(** ** Consistency of the two mappings *)

Lemma occ_nil `{EqDecision A} (x : A) : occ x [] = 0%nat.
Proof. done. Qed.

Lemma occ_snoc `{EqDecision A} (x y : A) (l : list A) :
  occ x (l ++ [y]) = (occ x l + if decide (y = x) then 1 else 0)%nat.
Proof.
  unfold occ. rewrite filter_app, length_app, filter_cons, filter_nil.
  by case_decide.
Qed.

(** The active key always has an entry: [lastArray] is a real array. *)
Lemma run_active links :
  is_Some (Flat.v_out (Flat.run links) !! Flat.active (Flat.v_src (Flat.run links))).
Proof.
  induction links as [|v links IH] using rev_ind; [by eexists|].
  rewrite run_snoc. unfold Flat.step. case_decide; simpl.
  - rewrite lookup_insert_eq. by eexists.
  - by rewrite lookup_alter_is_Some.
Qed.

Lemma alter_snoc_list (o : gmap Z (list Z)) (a s : Z) (x : Z) :
  is_Some (o !! a) →
  default [] (alter (λ l, l ++ [x]) a o !! s) =
  default [] (o !! s) ++ (if decide (s = a) then [x] else []).
Proof.
  intros [l Hl]. case_decide as Hs.
  - subst s. by rewrite lookup_alter_eq, Hl.
  - by rewrite lookup_alter_ne, app_nil_r.
Qed.

Lemma begins_negative_snoc links v :
  begins_negative (links ++ [v]) →
  (links = [] ∧ v < 0) ∨ begins_negative links.
Proof. destruct links; simpl; eauto. Qed.

Lemma run_inv links :
  links = [] ∨ begins_negative links →
  NoDup (declared links) →
  inv links (Flat.run links).
Proof.
  induction links as [|v links IH] using rev_ind; intros Hb Hnd.
  - split; [| |done]; intros s; unfold Flat.run; simpl.
    + intros t. rewrite lookup_empty. simpl.
      destruct (decide (s = 0)) as [->|];
        [by rewrite lookup_singleton_eq|by rewrite lookup_singleton_ne].
    + intros _. destruct (decide (s = 0)) as [->|];
        [by rewrite lookup_singleton_eq|by rewrite lookup_singleton_ne].
  - destruct Hb as [Hb|Hb]; [by destruct links|].
    apply begins_negative_snoc in Hb.
    rewrite declared_snoc in Hnd. apply NoDup_app in Hnd as (Hnd & Hfresh & _).
    assert (inv links (Flat.run links)) as [Hc Hu Hs].
    { apply IH; [|done]. destruct Hb as [[-> _]|Hb]; eauto. }
    pose proof (run_active links) as Hact.
    rewrite run_snoc. unfold Flat.step.
    destruct (decide (v < 0)) as [Hv|Hv]; simpl.
    + assert (- v - 1 ∉ declared links) as Hnew.
      { intros Hin. apply (Hfresh _ Hin). apply list_elem_of_here. }
      split; simpl.
      * intros s t. destruct (decide (s = - v - 1)) as [->|Hne].
        -- rewrite lookup_insert_eq. simpl. rewrite occ_nil.
           by rewrite <- Hc, Hu.
        -- by rewrite lookup_insert_ne.
      * intros s. rewrite declared_snoc, decide_True by done.
        rewrite elem_of_app, list_elem_of_singleton. intros Hs'.
        destruct (decide (s = - v - 1)) as [->|Hne]; [tauto|].
        rewrite lookup_insert_ne by done. apply Hu. tauto.
      * intros _. eexists. split; [done|].
        rewrite declared_snoc, decide_True by done.
        rewrite elem_of_app, list_elem_of_singleton. by right.
    + destruct Hb as [[_ ?]|Hb]; [lia|].
      destruct Hs as (s0 & Hsrc & Hdecl); [by destruct links|].
      rewrite Hsrc in *. simpl in *.
      split; simpl; rewrite ?declared_snoc, ?decide_False, ?app_nil_r by done.
      * intros s t. rewrite alter_snoc_list, inLinks_add_list by done.
        destruct (decide (s = s0)) as [->|Hs0]; destruct (decide (t = v - 1)) as [->|Ht].
        -- rewrite !occ_snoc, !decide_True by done. by rewrite Hc.
        -- rewrite occ_snoc, decide_False, app_nil_r by done. rewrite Hc. lia.
        -- rewrite occ_snoc, decide_False, app_nil_r by congruence. rewrite Hc. lia.
        -- by rewrite !app_nil_r.
      * intros s Hs'. rewrite alter_snoc_list by done.
        rewrite decide_False by (intros ->; done).
        rewrite app_nil_r. by apply Hu.
      * intros _. eauto.
Qed.

(** ** Decoding an encoded stream *)

Lemma fold_targets ts (w : Flat.View) s acc :
  Forall (λ t, 0 ≤ t) ts →
  Flat.v_src w = num s →
  Flat.v_out w !! s = Some acc →
  fold_left Flat.step ((λ t, t + 1) <$> ts) w =
  {| Flat.v_out := <[s := acc ++ ts]> (Flat.v_out w);
     Flat.v_in := add_edges s ts (Flat.v_in w);
     Flat.v_src := num s |}.
Proof.
  intros Hts. revert w acc.
  induction Hts as [|t ts Ht _ IH]; intros [o i src] acc Hsrc Hacc; simpl in *.
  - subst src. by rewrite app_nil_r, insert_id.
  - subst src. unfold Flat.step at 2. rewrite decide_False by lia. simpl.
    replace (t + 1 - 1) with t by lia.
    rewrite (IH _ (acc ++ [t])); simpl; [|done|by rewrite lookup_alter_eq, Hacc].
    f_equal. rewrite <- (assoc_L (++)). simpl.
    apply map_eq. intros k. rewrite !lookup_insert. case_decide; [done|].
    by rewrite lookup_alter_ne.
Qed.

Lemma fold_encode_pair p (w : Flat.View) :
  0 ≤ p.1 → Forall (λ t, 0 ≤ t) p.2 →
  fold_left Flat.step (encode_pair p) w =
  {| Flat.v_out := <[p.1 := p.2]> (Flat.v_out w);
     Flat.v_in := add_edges p.1 p.2 (Flat.v_in w);
     Flat.v_src := num p.1 |}.
Proof.
  destruct p as [s ts]. simpl. intros Hs Hts.
  unfold Flat.step at 2. rewrite decide_True by lia.
  replace (- - (s + 1) - 1) with s by lia.
  rewrite (fold_targets ts _ s []); simpl;
    [|done|done|by rewrite lookup_insert_eq].
  by rewrite insert_insert_eq.
Qed.

Lemma fold_encode pairs (w : Flat.View) :
  node_ids pairs →
  Flat.v_out (fold_left Flat.step (encode pairs) w) =
    fold_left (λ o p, <[p.1 := p.2]> o) pairs (Flat.v_out w) ∧
  Flat.v_in (fold_left Flat.step (encode pairs) w) =
    fold_left (λ i p, add_edges p.1 p.2 i) pairs (Flat.v_in w).
Proof.
  intros Hp. revert w. induction Hp as [|p pairs [Hs Hts] _ IH]; intros w.
  - done.
  - unfold encode in *. rewrite fmap_cons. cbn [concat].
    rewrite fold_left_app, fold_encode_pair by done.
    destruct (IH {| Flat.v_out := <[p.1 := p.2]> (Flat.v_out w);
                    Flat.v_in := add_edges p.1 p.2 (Flat.v_in w);
                    Flat.v_src := num p.1 |}) as [-> ->].
    done.
Qed.

Lemma fold_insert_notin (pairs : list (Z * list Z)) (o : gmap Z (list Z)) s :
  s ∉ pairs.*1 →
  fold_left (λ o p, <[p.1 := p.2]> o) pairs o !! s = o !! s.
Proof.
  revert o. induction pairs as [|p pairs IH]; intros o Hs; simpl; [done|].
  rewrite fmap_cons, not_elem_of_cons in Hs. destruct Hs as [Hne Hs].
  rewrite IH by done. by rewrite lookup_insert_ne.
Qed.

Lemma fold_insert_lookup (pairs : list (Z * list Z)) (o : gmap Z (list Z)) s ts :
  NoDup pairs.*1 → (s, ts) ∈ pairs →
  fold_left (λ o p, <[p.1 := p.2]> o) pairs o !! s = Some ts.
Proof.
  revert o. induction pairs as [|p pairs IH]; intros o Hnd Hin; simpl.
  - by apply elem_of_nil in Hin.
  - rewrite fmap_cons in Hnd. apply NoDup_cons in Hnd as [Hp Hnd].
    apply elem_of_cons in Hin as [<-|Hin].
    + rewrite fold_insert_notin by done. simpl. by rewrite lookup_insert_eq.
    + by apply IH.
Qed.

Lemma add_edges_list s ts (i : gmap Z (list jsval)) t :
  default [] (add_edges s ts i !! t) =
  default [] (i !! t) ++ sources_of t ((λ t', (s, t')) <$> ts).
Proof.
  revert i. unfold add_edges, sources_of.
  induction ts as [|t0 ts IH]; intros i; simpl.
  - by rewrite app_nil_r.
  - rewrite IH, inLinks_add_list, <- (assoc_L (++)). f_equal.
    rewrite filter_cons. simpl. repeat case_decide; try done; congruence.
Qed.

Lemma fold_add_edges_list pairs (i : gmap Z (list jsval)) t :
  default [] (fold_left (λ i p, add_edges p.1 p.2 i) pairs i !! t) =
  default [] (i !! t) ++ sources_of t (edges pairs).
Proof.
  revert i. induction pairs as [|p pairs IH]; intros i; simpl.
  - by rewrite app_nil_r.
  - rewrite IH, add_edges_list, <- (assoc_L (++)). f_equal.
    unfold sources_of, edges. rewrite fmap_cons. simpl.
    by rewrite filter_app, fmap_app.
Qed.

(** The only failure of the link decoder is the [RangeError] of the view. *)
Lemma setLinks_buffer_error buffer e :
  setLinks_buffer buffer = inl e → e = RangeError.
Proof.
  unfold setLinks_buffer, Int32Array. case_decide; simpl; congruence.
Qed.

(** Pairs whose ids fit the token range encode to 32-bit tokens. *)
Lemma encode_int32 (pairs : list (Z * list Z)) :
  Forall (λ p : Z * list Z,
            0 ≤ p.1 < 2 ^ 31 ∧ Forall (λ t, 0 ≤ t < 2 ^ 31 - 1) p.2) pairs →
  Forall int32 (encode pairs).
Proof.
  induction 1 as [|[s ts] pairs [Hs Hts] _ IH]; [constructor|].
  unfold encode in *. rewrite fmap_cons. cbn [concat].
  apply Forall_app. split; [|done].
  unfold encode_pair. cbn [fst snd] in *. constructor; [unfold int32; lia|].
  apply Forall_fmap. eapply Forall_impl; [exact Hts|].
  intros t Ht. unfold compose, int32. cbv beta in Ht. lia.
Qed.

(** ** The last declaration of a source *)

Lemma listings_snoc s (pairs : list (Z * list Z)) p :
  listings s (pairs ++ [p]) =
  listings s pairs ++ (if decide (p.1 = s) then [p] else []).
Proof.
  unfold listings. rewrite filter_app, filter_cons, filter_nil.
  by case_decide.
Qed.

(** A key of the folded inserts holds the list of the last pair that lists
    it. *)
Lemma fold_insert_last_targets (pairs : list (Z * list Z))
    (o : gmap Z (list Z)) s :
  fold_left (λ o p, <[p.1 := p.2]> o) pairs o !! s =
  match last_targets s pairs with
  | Some ts => Some ts
  | None => o !! s
  end.
Proof.
  induction pairs as [|p pairs IH] using rev_ind; [done|].
  rewrite fold_left_app. simpl. unfold last_targets in *.
  rewrite listings_snoc. case_decide as Hp.
  - rewrite last_snoc. simpl. subst s. by rewrite lookup_insert_eq.
  - by rewrite app_nil_r, lookup_insert_ne.
Qed.

Lemma last_targets_listed s (pairs : list (Z * list Z)) :
  s ∈ pairs.*1 → is_Some (last_targets s pairs).
Proof.
  intros (p & -> & Hin)%list_elem_of_fmap. unfold last_targets.
  apply fmap_is_Some, last_is_Some. intros Hnil.
  assert (p ∈ listings p.1 pairs) as Hp by by apply list_elem_of_filter.
  rewrite Hnil in Hp. by apply elem_of_nil in Hp.
Qed.

(** ** Counting on the decoded mappings *)

Lemma entries_insert_fresh (o : gmap Z (list Z)) k l :
  o !! k = None → entries (<[k := l]> o) = (length l + entries o)%nat.
Proof.
  intros Hk. unfold entries.
  rewrite map_fold_insert_L; [done| |done]. intros. lia.
Qed.

Lemma entries_insert (o : gmap Z (list Z)) k l :
  (entries (<[k := l]> o) + length (default [] (o !! k)) =
   entries o + length l)%nat.
Proof.
  destruct (o !! k) as [old|] eqn:Hk; simpl.
  - rewrite <- (insert_delete_id o k old Hk) at 2.
    rewrite <- (insert_delete_eq o k l).
    rewrite !entries_insert_fresh by apply lookup_delete_eq. lia.
  - rewrite entries_insert_fresh by done. lia.
Qed.

Lemma entries_alter_snoc (o : gmap Z (list Z)) k x :
  is_Some (o !! k) →
  entries (alter (λ a, a ++ [x]) k o) = S (entries o).
Proof.
  intros [l Hl].
  assert (alter (λ a, a ++ [x]) k o = <[k := l ++ [x]]> o) as ->.
  { apply map_eq. intros j. rewrite lookup_alter, lookup_insert.
    case_decide; [|done]. subst j. by rewrite Hl. }
  pose proof (entries_insert o k (l ++ [x])) as Hins.
  rewrite Hl, length_app in Hins. simpl in Hins. lia.
Qed.

Lemma run_entries_step links v :
  (entries (Flat.v_out (Flat.run (links ++ [v])))
   + (if decide (v < 0)%Z
      then length (default [] (Flat.v_out (Flat.run links) !! (- v - 1)%Z))
      else 0)
   = entries (Flat.v_out (Flat.run links))
     + (if decide (v < 0)%Z then 0 else 1))%nat.
Proof.
  rewrite run_snoc. unfold Flat.step. case_decide; simpl.
  - pose proof (entries_insert (Flat.v_out (Flat.run links)) (- v - 1) [])
      as Hins.
    simpl in Hins. lia.
  - rewrite entries_alter_snoc by apply run_active. lia.
Qed.

Lemma count_snoc (P : Z → Prop) `{!∀ v, Decision (P v)} links v :
  length (filter P (links ++ [v])) =
  (length (filter P links) + if decide (P v) then 1 else 0)%nat.
Proof.
  rewrite filter_app, length_app, filter_cons, filter_nil. by case_decide.
Qed.

(** No entry is counted that a non-negative token did not append. *)
Lemma run_entries_le links :
  (entries (Flat.v_out (Flat.run links)) ≤
   length (filter (λ v, 0 ≤ v)%Z links))%nat.
Proof.
  induction links as [|v links IH] using rev_ind.
  - unfold Flat.run, Flat.start, entries; simpl.
    rewrite map_fold_singleton. simpl. lia.
  - pose proof (run_entries_step links v) as Hstep.
    rewrite count_snoc. repeat case_decide; lia.
Qed.

(** Without a repeated declaration and without a leading edge token, every
    appended entry is still there. *)
Lemma run_entries_eq links :
  links = [] ∨ begins_negative links →
  NoDup (declared links) →
  entries (Flat.v_out (Flat.run links)) =
  length (filter (λ v, 0 ≤ v) links).
Proof.
  induction links as [|v links IH] using rev_ind; intros Hb Hnd.
  - unfold Flat.run, Flat.start, entries; simpl.
    by rewrite map_fold_singleton.
  - destruct Hb as [Hb|Hb]; [by destruct links|].
    apply begins_negative_snoc in Hb.
    pose proof Hnd as Hnd'.
    rewrite declared_snoc in Hnd'. apply NoDup_app in Hnd' as (Hnd' & Hfresh & _).
    assert (links = [] ∨ begins_negative links) as Hb'
      by (destruct Hb as [[-> _]|Hb]; eauto).
    specialize (IH Hb' Hnd').
    pose proof (run_entries_step links v) as Hstep.
    rewrite count_snoc. destruct (decide (v < 0)) as [Hv|Hv].
    + rewrite (inv_undeclared _ _ (run_inv links Hb' Hnd')) in Hstep.
      * simpl in Hstep. case_decide; lia.
      * intros Hin. apply (Hfresh _ Hin). apply list_elem_of_here.
    + case_decide; lia.
Qed.

Lemma size_list_to_set_le (l : list Z) :
  (size (list_to_set l : gset Z) ≤ length l)%nat.
Proof.
  induction l as [|x l IH].
  - by rewrite list_to_set_nil, size_empty.
  - rewrite list_to_set_cons, size_union_alt, size_singleton. simpl.
    pose proof (subseteq_size (list_to_set l ∖ {[x]}) (list_to_set l : gset Z))
      as Hsub.
    specialize (Hsub (subseteq_difference_l _ _ _ (reflexivity _))). lia.
Qed.

(** The keys of [outLinks]: index 0 and the declared sources. *)
Lemma setLinks_dom links :
  dom (outLinks (setLinks links)) = {[0]} ∪ list_to_set (declared links).
Proof.
  apply set_eq. intros k.
  rewrite elem_of_dom, setLinks_out_dom, elem_of_union, elem_of_singleton,
    elem_of_list_to_set. done.
Qed.

(** C1. With a source id listed twice, [outLinks] of that source is not its
    per-source target list: the pairs [(0, [1]), (0, [2])] give the stream
    [-1, 2, -1, 3]; the per-source target list of 0 is [1, 2], and the
    decoded [outLinks[0]] is [2], because the second [-1] replaces the
    array. *)
Lemma C1_repeated_source_keeps_last_list :
  ¬ (node_ids [(0, [1]); (0, [2])] →
     ∀ s, s ∈ [(0, [1]); (0, [2])].*1 →
       out_get (setLinks (encode [(0, [1]); (0, [2])])) s
       = Some (targets_of s [(0, [1]); (0, [2])])).
Proof.
  intros H.
  assert (node_ids [(0, [1]); (0, [2])]) as Hids.
  { repeat constructor; simpl; lia. }
  specialize (H Hids 0 ltac:(apply list_elem_of_here)).
  vm_compute in H. discriminate.
Qed.

(** C1 (amended). For every sequence of (sourceId, targets) pairs, in any
    order, decoding the stream built from the pairs gives [outLinks] in which
    each listed source maps to the target list of the last pair that lists
    it, in the original order; for a source listed once this is exactly its
    original target list.  [inLinks[t]] is the list of the sources of the
    edges into [t] in stream order, so it contains [s] for every edge
    [(s, t)], whether or not sources repeat. *)
Theorem C1_round_trip (pairs : list (Z * list Z)) :
  node_ids pairs →
  (∀ s, s ∈ pairs.*1 →
     out_get (setLinks (encode pairs)) s = last_targets s pairs) ∧
  (∀ s ts, listings s pairs = [(s, ts)] →
     out_get (setLinks (encode pairs)) s = Some ts ∧ targets_of s pairs = ts) ∧
  (∀ t, in_list (setLinks (encode pairs)) t = sources_of t (edges pairs)) ∧
  (∀ s t, (s, t) ∈ edges pairs → num s ∈ in_list (setLinks (encode pairs)) t).
Proof.
  intros Hids.
  destruct (fold_encode pairs Flat.start Hids) as [Hout Hin].
  assert (∀ t, in_list (setLinks (encode pairs)) t = sources_of t (edges pairs))
    as Hlist.
  { intros t. rewrite in_list_run. unfold Flat.run. rewrite Hin.
    rewrite fold_add_edges_list. simpl. by rewrite lookup_empty. }
  assert (∀ s, out_get (setLinks (encode pairs)) s =
               match last_targets s pairs with
               | Some ts => Some ts
               | None => Flat.v_out Flat.start !! s
               end) as Hlast.
  { intros s. rewrite setLinks_out_get. unfold Flat.run. rewrite Hout.
    apply fold_insert_last_targets. }
  split; [|split; [|split; [done|]]].
  - intros s Hs. rewrite Hlast.
    by destruct (last_targets_listed s pairs Hs) as [ts ->].
  - intros s ts Hs. rewrite Hlast. unfold last_targets, targets_of.
    rewrite Hs. simpl. by rewrite app_nil_r.
  - intros s t Hst. rewrite Hlist. unfold sources_of.
    apply (list_elem_of_fmap_2' _ _ (s, t)); [|done].
    by apply list_elem_of_filter.
Qed.

Lemma C1_round_trip_witness :
  (out_get (setLinks (encode [(0, [1; 2]); (1, [0]); (0, [3])])) 0
   = last_targets 0 [(0, [1; 2]); (1, [0]); (0, [3])]) ∧
  (out_get (setLinks (encode [(0, [1; 2]); (1, [0]); (0, [3])])) 1 = Some [0] ∧
   targets_of 1 [(0, [1; 2]); (1, [0]); (0, [3])] = [0]) ∧
  in_list (setLinks (encode [(0, [1; 2]); (1, [0]); (0, [3])])) 2
  = sources_of 2 (edges [(0, [1; 2]); (1, [0]); (0, [3])]).
Proof.
  destruct (C1_round_trip [(0, [1; 2]); (1, [0]); (0, [3])])
    as (Hlast & Honce & Hin & _).
  - repeat constructor; simpl; lia.
  - split; [apply Hlast; compute_done|].
    split; [apply Honce; reflexivity|apply Hin].
Defined.

(** C2. The stream [-1, 2, 3, -2, 1] does not decode to
    [inLinks = {1: [0], 2: [0]}]: its last token is the edge 1 -> 0, which
    gives [inLinks[0] = [1]]. *)
Lemma C2_scenario_inLinks_has_entry_0 :
  ¬ (out_view (setLinks [-1; 2; 3; -2; 1]) = {[0 := [1; 2]; 1 := [0]]} ∧
     inLinks (setLinks [-1; 2; 3; -2; 1]) = {[1 := [num 0]; 2 := [num 0]]}).
Proof.
  intros [_ Hin].
  assert (inLinks (setLinks [-1; 2; 3; -2; 1]) !! 0 = Some [num 1]) as H0
    by (vm_compute; reflexivity).
  rewrite Hin in H0. vm_compute in H0. discriminate.
Qed.

(** C2 (amended). The stream [-1, 2, 3, -2, 1] decodes to exactly
    [outLinks = {0: [1,2], 1: [0]}] and exactly
    [inLinks = {0: [1], 1: [0], 2: [0]}]. *)
Theorem C2_scenario :
  out_view (setLinks [-1; 2; 3; -2; 1]) = {[0 := [1; 2]; 1 := [0]]} ∧
  inLinks (setLinks [-1; 2; 3; -2; 1]) =
    {[0 := [num 1]; 1 := [num 0]; 2 := [num 0]]}.
Proof. split; vm_compute; reflexivity. Qed.

(** C3. Node id 0 has an entry in [outLinks] although no negative token
    declares it: here the only declared source is 1. *)
Lemma C3_undeclared_zero_has_entry :
  ¬ (0 ∉ declared [-2; 1] → outLinks (setLinks [-2; 1]) !! 0 = None).
Proof.
  intros H.
  assert (0 ∉ declared [-2; 1]) as Hnd by compute_done.
  specialize (H Hnd). vm_compute in H. discriminate.
Qed.

(** C3 (amended). A node id other than 0 that no negative token declares
    has no entry in [outLinks]; a node id that is the decremented target of
    no non-negative token has no entry in [inLinks]. *)
Theorem C3_sparse_nodes (links : list Z) (k : Z) :
  (k ≠ 0 → k ∉ declared links → outLinks (setLinks links) !! k = None) ∧
  (k ∉ targets links → inLinks (setLinks links) !! k = None).
Proof.
  split.
  - intros Hk Hnd. apply eq_None_not_Some. rewrite setLinks_out_dom. tauto.
  - intros Hnt. apply eq_None_not_Some. by rewrite setLinks_in_dom.
Qed.

Lemma C3_sparse_nodes_witness :
  outLinks (setLinks [-2; 1]) !! 5 = None ∧
  inLinks (setLinks [-2; 1]) !! 5 = None.
Proof.
  split.
  - apply (proj1 (C3_sparse_nodes [-2; 1] 5)); [lia|compute_done].
  - apply (proj2 (C3_sparse_nodes [-2; 1] 5)). compute_done.
Defined.

(** C4. The one-token stream [0] has a zero token and begins with a
    non-negative token, and [setLinks] returns a result for it: [toNode] is
    -1 and the source recorded in [inLinks[-1]] is [undefined]. *)
Lemma C4_zero_token_is_decoded :
  ¬ (0 ∈ [0] ∨ begins_non_negative [0] →
     setLinks_buffer (buffer_of [0]) = inl DataMalformed).
Proof.
  intros H.
  assert (begins_non_negative [0]) as Hb by (simpl; lia).
  specialize (H (or_intror Hb)). vm_compute in H. discriminate.
Qed.

(** C4 (amended). The link decoder reports no decode error: for every stream
    of signed 32-bit tokens it returns a result.  A zero token leaves an
    entry at key -1 of [inLinks], and a leading non-negative token [v]
    leaves [undefined] as the first source of [inLinks[v - 1]]. *)
Theorem C4_setLinks_total (links : list Z) :
  Forall int32 links →
  setLinks_buffer (buffer_of links) = inr (setLinks links) ∧
  (0 ∈ links → is_Some (inLinks (setLinks links) !! (-1))) ∧
  (∀ v rest, links = v :: rest → 0 ≤ v →
     ∃ tl, inLinks (setLinks links) !! (v - 1) = Some (undefined :: tl)).
Proof.
  intros Hl. split; [|split].
  - unfold setLinks_buffer. by rewrite Int32Array_buffer_of.
  - intros H0. rewrite setLinks_in_dom. unfold targets.
    apply (list_elem_of_fmap_2' _ _ 0); [|done].
    apply list_elem_of_filter. split; [lia|done].
  - intros v rest -> Hv. rewrite setLinks_inLinks. unfold Flat.run. simpl.
    eapply fold_in_head. unfold Flat.step. rewrite decide_False by lia. simpl.
    by rewrite inLinks_add_lookup, decide_True.
Qed.

Lemma C4_setLinks_total_witness :
  setLinks_buffer (buffer_of [0]) = inr (setLinks [0]) ∧
  is_Some (inLinks (setLinks [0]) !! (-1)) ∧
  ∃ tl, inLinks (setLinks [0]) !! (0 - 1) = Some (undefined :: tl).
Proof.
  destruct (C4_setLinks_total [0]) as (H1 & H2 & H3).
  - repeat constructor; unfold int32; lia.
  - split; [exact H1|]. split.
    + apply H2. apply list_elem_of_here.
    + apply (H3 0 []); [reflexivity|lia].
Defined.

(** C7. On the stream [-1, 2, -1] the decoded [outLinks] holds no entry
    although the stream has one non-negative token, and has one source
    although the stream has two negative tokens: the second [-1] replaces the
    array that held the entry. *)
Lemma C7_redeclaration_drops_entries :
  ¬ (entries (out_view (setLinks [-1; 2; -1]))
       = length (filter (λ v, 0 ≤ v) [-1; 2; -1]) ∧
     size (outLinks (setLinks [-1; 2; -1]))
       = length (filter (λ v, v < 0) [-1; 2; -1])).
Proof. intros [H _]. vm_compute in H. discriminate. Qed.

(** C7 (amended). The lists of the decoded [outLinks] hold at most as many
    entries as the stream has non-negative tokens, and exactly as many when
    the stream begins with a negative token and declares no source twice.
    The sources that hold a list are index 0 and the declared source ids:
    at most one more than the stream has negative tokens, and, when no
    source is declared twice, as many as the negative tokens plus one if no
    token declares source 0. *)
Theorem C7_output_counts (links : list Z) :
  (entries (out_view (setLinks links))
     ≤ length (filter (λ v, 0 ≤ v)%Z links))%nat ∧
  (begins_negative links → NoDup (declared links) →
     entries (out_view (setLinks links))
     = length (filter (λ v, 0 ≤ v) links)) ∧
  dom (outLinks (setLinks links)) = {[0]} ∪ list_to_set (declared links) ∧
  (size (outLinks (setLinks links))
     ≤ S (length (filter (λ v, v < 0)%Z links)))%nat ∧
  (NoDup (declared links) →
     size (outLinks (setLinks links))
     = (length (filter (λ v, v < 0)%Z links)
        + if decide (0%Z ∈ declared links) then 0 else 1)%nat).
Proof.
  assert (out_view (setLinks links) = Flat.v_out (Flat.run links)) as Hview
    by by rewrite <- setLinks_view.
  assert (length (declared links) = length (filter (λ v, v < 0) links)) as Hlen
    by (unfold declared; by rewrite length_fmap).
  split; [|split; [|split; [|split]]].
  - rewrite Hview. apply run_entries_le.
  - intros Hb Hnd. rewrite Hview. apply run_entries_eq; [by right|done].
  - apply setLinks_dom.
  - rewrite <- size_dom, setLinks_dom, size_union_alt, size_singleton, <- Hlen.
    pose proof (subseteq_size (list_to_set (declared links) ∖ {[0]})
                  (list_to_set (declared links) : gset Z)
                  (subseteq_difference_l _ _ _ (reflexivity _))) as Hsub.
    pose proof (size_list_to_set_le (declared links)). lia.
  - intros Hnd. rewrite <- size_dom, setLinks_dom, <- Hlen.
    case_decide as H0.
    + replace ({[0]} ∪ list_to_set (declared links) : gset Z)
        with (list_to_set (declared links) : gset Z).
      * rewrite size_list_to_set by done. lia.
      * apply set_eq. intros k.
        rewrite elem_of_union, elem_of_singleton, elem_of_list_to_set.
        split; [tauto|]. intros [->|?]; done.
    + rewrite size_union, size_singleton, size_list_to_set by
        (try done; intros k ->%elem_of_singleton Hk;
         by apply elem_of_list_to_set in Hk).
      lia.
Qed.

Lemma C7_output_counts_witness :
  entries (out_view (setLinks [-1; 2; 3; -2; 1])) = 3%nat ∧
  size (outLinks (setLinks [-1; 2; 3; -2; 1])) = 2%nat.
Proof.
  destruct (C7_output_counts [-1; 2; 3; -2; 1]) as (_ & Heq & _ & _ & Hsize).
  split.
  - apply Heq; [simpl; lia|compute_done].
  - apply Hsize. compute_done.
Defined.

(** C10. A negative token leaves the list of the source it declares empty,
    whatever that source held before, and leaves [inLinks] as it was.  A
    stream that begins with a negative token, has no zero token and declares
    no source twice decodes to consistent mappings; the stream [-1, 2, -1],
    which declares source 0 twice, does not. *)
Theorem C10_redeclaration :
  (∀ (pre : list Z) (v : Z), v < 0 →
     out_get (setLinks (pre ++ [v])) (- v - 1) = Some [] ∧
     inLinks (setLinks (pre ++ [v])) = inLinks (setLinks pre)) ∧
  (∀ links : list Z,
     begins_negative links → 0 ∉ links → NoDup (declared links) →
     consistent (setLinks links)) ∧
  (∃ links : list Z,
     begins_negative links ∧ (0 ∉ links) ∧ ¬ NoDup (declared links) ∧
     ¬ consistent (setLinks links)).
Proof.
  split; [|split].
  - intros pre v Hv. rewrite setLinks_out_get, !setLinks_inLinks, run_snoc.
    unfold Flat.step. rewrite decide_True by done. simpl.
    by rewrite lookup_insert_eq.
  - intros links Hb _ Hnd s t. rewrite out_list_run, in_list_run.
    apply run_inv; [by right|done].
  - exists [-1; 2; -1]. split; [simpl; lia|]. split; [|split].
    + rewrite !elem_of_cons, elem_of_nil. lia.
    + intros Hnd. vm_compute in Hnd.
      apply NoDup_cons in Hnd as [Hnd _]. apply Hnd, list_elem_of_here.
    + intros Hc. specialize (Hc 0 1). vm_compute in Hc. discriminate.
Qed.

Lemma C10_redeclaration_witness :
  (out_get (setLinks ([-1; 2] ++ [-1])) 0 = Some [] ∧
   inLinks (setLinks ([-1; 2] ++ [-1])) = inLinks (setLinks [-1; 2])) ∧
  consistent (setLinks [-1; 2; 3; -2; 1]).
Proof.
  destruct C10_redeclaration as (Hreset & Hcons & _). split.
  - apply (Hreset [-1; 2] (-1)). lia.
  - apply Hcons.
    + simpl. lia.
    + compute_done.
    + compute_done.
Defined.

(** C9. After decoding, [outLinks] has an entry at index 0, whatever the
    stream; the empty stream gives [outLinks = {0: []}] and an empty
    [inLinks]. *)
Theorem C9_outLinks_zero (links : list Z) :
  is_Some (out_get (setLinks links) 0) ∧
  out_view (setLinks []) = {[0 := []]} ∧
  inLinks (setLinks []) = ∅.
Proof.
  split; [|split; reflexivity].
  rewrite setLinks_out_get, run_out_dom. by left.
Qed.

(** ** Version resolution *)

Lemma indexOf_from_spec i l x :
  (x ∈ l → i ≤ Version.indexOf_from i l x) ∧
  (x ∉ l → Version.indexOf_from i l x = -1).
Proof.
  revert i. induction l as [|y l IH]; intros i; simpl.
  - split; [by intros ?%elem_of_nil|done].
  - case_decide as Hy.
    + subst y. split; [lia|]. intros []. apply list_elem_of_here.
    + destruct (IH (i + 1)) as [IH1 IH2]. split.
      * intros [?|Hin]%elem_of_cons; [congruence|]. specialize (IH1 Hin). lia.
      * intros Hn. apply IH2. intros Hin. apply Hn. by apply list_elem_of_further.
Qed.

Lemma indexOf_found l x : 0 ≤ Version.indexOf l x ↔ x ∈ l.
Proof.
  unfold Version.indexOf. destruct (indexOf_from_spec 0 l x) as [H1 H2].
  split; [|done]. intros H0. destruct (decide (x ∈ l)) as [|Hn]; [done|].
  rewrite H2 in H0 by done. lia.
Qed.

Lemma truthy_nonempty v : v ≠ "" → Version.truthy v = true.
Proof. by destruct v. Qed.

(** * Properties of version resolution *)

(** The scenario of the specification: manifest [{last: "v2", all: ["v1",
    "v2"]}] with "v1" pinned resolves to "v1". *)
Example version_scenario :
  Version.version_of (Some "v1")
    (Some {| Version.last := "v2"; Version.all := Some ["v1"; "v2"] |})
  = inr "v1".
Proof. reflexivity. Qed.

(** C5. The resolved version can be the pinned one without the pinned one
    being approved: with manifest [{last: "v2", all: ["v1"]}] and "v2"
    pinned, the result is the last version, "v2". *)
Lemma C5_pinned_last_not_approved :
  ¬ (Version.version_of (Some "v2")
       (Some {| Version.last := "v2"; Version.all := Some ["v1"] |}) = inr "v2"
     ↔ "v2" ∈ ["v1"]).
Proof.
  intros [H _]. specialize (H eq_refl).
  apply list_elem_of_singleton in H. discriminate.
Qed.

(** C5 (amended). For every manifest and every non-empty pinned version [p]:
    the resolved version is [p] when [p] is in the approved set and the last
    version when it is not, so that it equals [p] exactly when [p] is approved
    or is the last version.  With no approved set, or a pinned version that is
    absent or empty, the resolved version is the last version. *)
Theorem C5_version_resolution (m : Version.Manifest) (p : string) :
  p ≠ "" →
  (∀ approved, Version.all m = Some approved →
     (p ∈ approved → Version.version_of (Some p) (Some m) = inr p) ∧
     (p ∉ approved →
        Version.version_of (Some p) (Some m) = inr (Version.last m)) ∧
     (Version.version_of (Some p) (Some m) = inr p
        ↔ p ∈ approved ∨ p = Version.last m)) ∧
  (Version.all m = None →
     Version.version_of (Some p) (Some m) = inr (Version.last m)) ∧
  Version.version_of None (Some m) = inr (Version.last m) ∧
  Version.version_of (Some "") (Some m) = inr (Version.last m).
Proof.
  intros Hp. destruct m as [lastv allv]. simpl.
  unfold Version.version_of, Version.getFromAppConfig. simpl.
  split; [|split; [|split]].
  - intros approved ->. rewrite (truthy_nonempty p Hp).
    case_decide as Hi; rewrite indexOf_found in Hi.
    + rewrite (truthy_nonempty p Hp). split; [done|]. split; [done|].
      split; [by left|done].
    + split; [done|]. split; [done|]. simpl.
      split; [intros [= ->]; by right|]. intros [? | ->]; done.
  - by intros ->.
  - by destruct allv.
  - by destruct allv.
Qed.

Lemma C5_version_resolution_witness :
  Version.version_of (Some "v1")
    (Some {| Version.last := "v2"; Version.all := Some ["v1"; "v2"] |})
  = inr "v1".
Proof.
  destruct (C5_version_resolution
              {| Version.last := "v2"; Version.all := Some ["v1"; "v2"] |} "v1")
    as [H _]; [discriminate|].
  destruct (H ["v1"; "v2"] eq_refl) as [Hin _].
  apply Hin. apply list_elem_of_here.
Defined.

(** * Properties of the load pipeline *)

Section PipelineFacts.

Import Pipeline.

Variable dataUrl : string.
Variable now : string.
Variable request_manifest : string → result (option Version.Manifest).
Variable request_arraybuffer : string → result (list byte).
Variable request_labels : string → result (list string).
Variable scaled : Z → Z.
Variable Graph : Type.
Variable createGraph : GraphData → Graph.

Local Abbreviation stages :=
  (Pipeline.stages now request_manifest request_arraybuffer request_labels scaled).
Local Abbreviation chain :=
  (Pipeline.chain now request_manifest request_arraybuffer request_labels scaled
     Graph createGraph).
Local Abbreviation loadGraph :=
  (Pipeline.loadGraph dataUrl now request_manifest request_arraybuffer
     request_labels scaled Graph createGraph).

(** Each step issues the request for its file, and only that one. *)
Lemma stages_issue : Forall2 issues files stages.
Proof.
  repeat constructor; intros s r s';
    unfold loadManifest, loadPositions, loadLinks, loadLabels, then_, request,
      setManifest, setPositions_handler, setLinks_handler, setLabels.
  - destruct (request_manifest _) as [e|response]; simpl.
    + intros [= <- <-]. by eexists.
    + destruct (Version.version_of _ _); simpl; intros [= <- <-]; simpl.
      * by eexists.
      * rewrite <- (assoc_L (++)). by eexists.
  - destruct (request_arraybuffer _) as [e|buffer]; simpl.
    + intros [= <- <-]. by eexists.
    + destruct (Positions.setPositions _ _); simpl; intros [= <- <-]; simpl.
      * by eexists.
      * rewrite <- (assoc_L (++)). by eexists.
  - destruct (request_arraybuffer _) as [e|buffer]; simpl.
    + intros [= <- <-]. by eexists.
    + destruct (Int32Array _); simpl; intros [= <- <-]; simpl.
      * by eexists.
      * rewrite <- (assoc_L (++)). by eexists.
  - destruct (request_labels _) as [e|data]; simpl.
    + intros [= <- <-]. by eexists.
    + intros [= <- <-]; simpl. rewrite <- (assoc_L (++)). by eexists.
Qed.

Lemma requested_app evs1 evs2 :
  requested (evs1 ++ evs2) = requested evs1 ++ requested evs2.
Proof. apply omap_app. Qed.

(** A run of steps that all succeed issued the request of each, in order. *)
Lemma run_stages_success fs l s s1 :
  Forall2 issues fs l →
  run_stages l s = (inr tt, s1) →
  ∃ evs, events s1 = events s ++ evs ∧ requested evs = fs.
Proof.
  intros Hl. revert s. induction Hl as [|f stage fs l Hf _ IH]; intros s; simpl.
  - intros [= <-]. exists []. by rewrite app_nil_r.
  - unfold then_. destruct (stage tt s) as [[e|[]] s'] eqn:Hs; [done|].
    intros Hrun. destruct (Hf _ _ _ Hs) as (evs1 & He1 & Hr1).
    destruct (IH _ Hrun) as (evs2 & He2 & Hr2).
    exists (evs1 ++ evs2).
    rewrite He2, He1, (assoc_L (++)), requested_app, Hr1, Hr2. done.
Qed.

(** A step that fails ends the run in the state it left. *)
Lemma run_stages_failure pre stage post s s1 e s2 :
  run_stages pre s = (inr tt, s1) →
  stage tt s1 = (inl e, s2) →
  run_stages (pre ++ stage :: post) s = (inl e, s2).
Proof.
  revert s. induction pre as [|st pre IH]; intros s; simpl.
  - intros [= <-] Hs. unfold then_. by rewrite Hs.
  - unfold then_. destruct (st tt s) as [[e'|[]] s'] eqn:Hs; [done|].
    intros Hrun Hstage. by apply IH.
Qed.

(** The promise chain of [loadGraph] is the run of the four steps followed
    by [convertToGraph]. *)
Lemma chain_stages s :
  chain s = (run_stages stages >>= convertToGraph Graph createGraph) s.
Proof.
  unfold Pipeline.chain, Pipeline.stages, then_; simpl. unfold then_.
  destruct (loadManifest _ _ tt s) as [[e|[]] s1]; [done|].
  destruct (loadPositions _ _ tt s1) as [[e|[]] s2]; [done|].
  destruct (loadLinks _ tt s2) as [[e|[]] s3]; [done|].
  destruct (loadLabels _ tt s3) as [[e|[]] s4]; done.
Qed.

(** C8. When a fetch-and-decode step fails with an error, after the steps
    before it succeeded, [loadGraph] settles with that error and no graph, in
    the state the failing step left: the requests issued are those of the
    steps up to the failing one, so no later step was started.  With the
    links step failing, the labels request is not among them. *)
Theorem C8_failure_aborts (name : string) (pinned : option string)
    (k : nat) (stage : unit → Promise unit) (s1 s2 : State) (e : Error) :
  stages !! k = Some stage →
  run_stages (take k stages) (init dataUrl name pinned) = (inr tt, s1) →
  stage tt s1 = (inl e, s2) →
  loadGraph name pinned = (inl e, s2) ∧
  requested (events s2) = take (S k) files ∧
  (k = 2%nat → LabelsFile ∉ requested (events s2)).
Proof.
  intros Hk Hpre Hstage.
  assert (requested (events s2) = take (S k) files) as Hreq.
  { pose proof stages_issue as Hall.
    destruct (run_stages_success (take k files) (take k stages) _ _
                (Forall2_take _ _ _ k Hall) Hpre) as (evs1 & Hev1 & Hr1).
    destruct (Forall2_lookup_r _ _ _ _ _ Hall Hk) as (f & Hf & Hissue).
    destruct (Hissue _ _ _ Hstage) as (evs2 & Hev2 & Hr2).
    rewrite Hev2, Hev1, !requested_app, Hr1, Hr2.
    by rewrite (take_S_r _ _ _ Hf). }
  split; [|split; [done|]].
  - unfold Pipeline.loadGraph. rewrite chain_stages. unfold then_ at 1.
    rewrite <- (take_drop_middle _ _ _ Hk).
    by rewrite (run_stages_failure _ _ _ _ _ _ _ Hpre Hstage).
  - intros ->. rewrite Hreq. simpl.
    rewrite !elem_of_cons, elem_of_nil. intros [?|[?|[?|[]]]]; discriminate.
Qed.

(** Every run either completes its steps or has a first failing step. *)
Lemma run_stages_cases (l : list (unit → Promise unit)) s :
  (∃ s', run_stages l s = (inr tt, s')) ∨
  (∃ k stage s1 e s2,
     l !! k = Some stage ∧
     run_stages (take k l) s = (inr tt, s1) ∧
     stage tt s1 = (inl e, s2)).
Proof.
  revert s. induction l as [|st l IH]; intros s; simpl; [by left; eexists|].
  unfold then_. destruct (st tt s) as [[e|[]] s'] eqn:Hs.
  - right. by exists 0%nat, st, s, e, s'.
  - destruct (IH s') as [[s'' Hok]|(k & stage & s1 & e & s2 & Hk & Hpre & Hf)].
    + left. by exists s''.
    + right. exists (S k), stage, s1, e, s2. simpl. unfold then_.
      by rewrite Hs.
Qed.

(** In a run that completes, the decoded links are [setLinks] of the
    integers of the links response. *)
Lemma loadGraph_links name pinned s4 :
  run_stages stages (init dataUrl name pinned) = (inr tt, s4) →
  ∃ url buffer a,
    request_arraybuffer url = inr buffer ∧
    Int32Array buffer = inr a ∧
    links s4 = setLinks a.
Proof.
  unfold Pipeline.stages, run_stages, then_.
  unfold loadManifest, loadPositions, loadLinks, loadLabels, then_, request,
    setManifest, setPositions_handler, setLinks_handler, setLabels. simpl.
  destruct (request_manifest _) as [?|response]; [done|]. simpl.
  destruct (Version.version_of _ _) as [?|version]; [done|]. simpl.
  destruct (request_arraybuffer _) as [?|pbuf]; [done|]. simpl.
  destruct (Positions.setPositions _ _) as [?|ps]; [done|]. simpl.
  destruct (request_arraybuffer _) as [?|lbuf] eqn:Hreq; [done|]. simpl.
  destruct (Int32Array lbuf) as [?|a] eqn:Ha; [done|]. simpl.
  destruct (request_labels _) as [?|data]; [done|]. simpl.
  intros [= <-]. simpl. eexists _, lbuf, a. by split; [exact Hreq|].
Qed.

(** When every step succeeds the run produces the graph. *)
Lemma loadGraph_success name pinned s4 :
  run_stages stages (init dataUrl name pinned) = (inr tt, s4) →
  loadGraph name pinned =
    (inr (createGraph {| g_positions := positions s4; g_labels := labels s4;
                         g_outLinks := out_view (links s4);
                         g_inLinks := inLinks (links s4) |}), s4) ∧
  requested (events s4) = files.
Proof.
  intros Hrun. split.
  - unfold Pipeline.loadGraph. rewrite chain_stages. unfold then_ at 1.
    by rewrite Hrun.
  - destruct (run_stages_success files stages _ _ stages_issue Hrun)
      as (evs & -> & Hr). done.
Qed.

End PipelineFacts.

Lemma C8_failure_aborts_witness :
  ∃ s2,
    Sample.load "g" (Some "v1") = (inl (TransportFailure "503"), s2) ∧
    Pipeline.requested (Pipeline.events s2) =
      [Pipeline.ManifestFile; Pipeline.PositionsFile; Pipeline.LinksFile] ∧
    Pipeline.LabelsFile ∉ Pipeline.requested (Pipeline.events s2).
Proof.
  eexists.
  edestruct (C8_failure_aborts "data/" "0" Sample.serve_manifest
               Sample.serve_arraybuffer Sample.serve_labels (scaled_by 1)
               Pipeline.GraphData id "g" (Some "v1") 2%nat)
    as (Hfail & Hreq & Hlabels).
  - reflexivity.
  - vm_compute. reflexivity.
  - vm_compute. reflexivity.
  - split; [exact Hfail|]. split; [exact Hreq|exact (Hlabels eq_refl)].
Defined.

(** * Further properties of the typed-array view *)

Lemma to_int32_range u : int32 (to_int32 u).
Proof.
  unfold int32, to_int32. simpl.
  case_decide; Z.div_mod_to_equations; lia.
Qed.

Lemma byte_val_range b : 0 ≤ byte_val b < 2 ^ 8.
Proof.
  unfold byte_val. pose proof (Strings.Byte.to_N_bounded b). lia.
Qed.

Lemma byte_of_byte_val z b : z mod 2 ^ 8 = byte_val b → byte_of z = b.
Proof.
  unfold byte_of, byte_val. intros ->.
  by rewrite N2Z.id, Strings.Byte.of_to_N.
Qed.

Lemma bytes_of_int32_of_bytes b0 b1 b2 b3 :
  bytes_of_int32 (int32_of_bytes b0 b1 b2 b3) = [b0; b1; b2; b3].
Proof.
  unfold bytes_of_int32, int32_of_bytes, to_int32.
  pose proof (byte_val_range b0). pose proof (byte_val_range b1).
  pose proof (byte_val_range b2). pose proof (byte_val_range b3).
  repeat f_equal; apply byte_of_byte_val; simpl;
    case_decide; Z.div_mod_to_equations; lia.
Qed.

Lemma elements_int32 buffer : Forall int32 (elements buffer).
Proof.
  induction buffer as [buffer IH] using (induction_ltof1 _ length).
  unfold ltof in IH.
  do 4 (destruct buffer as [|? buffer]; [constructor|]). simpl.
  constructor; [apply to_int32_range|]. apply IH. simpl. lia.
Qed.

Lemma buffer_of_elements buffer :
  (length buffer mod 4 = 0)%nat → buffer_of (elements buffer) = buffer.
Proof.
  intros Hm. apply Nat.Div0.mod_divides in Hm as [n Hn]. revert buffer Hn.
  induction n as [|n IH]; intros buffer Hn.
  - destruct buffer; [done|simpl in Hn; lia].
  - do 4 (destruct buffer as [|? buffer]; [simpl in Hn; lia|]).
    cbn [elements]. unfold buffer_of in *. rewrite fmap_cons. cbn [concat].
    rewrite bytes_of_int32_of_bytes, IH by (simpl in Hn; lia). done.
Qed.

(** X1. A buffer whose byte length is a multiple of 4 is viewed as one
    integer per 4 bytes, each in the signed 32-bit range, and the bytes can be
    recovered from the integers: the view loses nothing. *)
Theorem Int32Array_view (buffer : list byte) (a : list Z) :
  Int32Array buffer = inr a →
  (4 * length a = length buffer)%nat ∧ Forall int32 a ∧ buffer_of a = buffer.
Proof.
  unfold Int32Array. case_decide as Hm; [|done]. intros [= <-].
  split; [|split].
  - pose proof (length_elements buffer Hm). lia.
  - apply elements_int32.
  - by apply buffer_of_elements.
Qed.

Lemma Int32Array_view_witness :
  (4 * length [-1; 2]%Z = length (buffer_of [-1; 2]%Z))%nat ∧
  Forall int32 [-1; 2] ∧ buffer_of [-1; 2] = buffer_of [-1; 2].
Proof.
  apply (Int32Array_view (buffer_of [-1; 2]) [-1; 2]).
  vm_compute. reflexivity.
Defined.

(** * Further properties of the position decoder *)

Lemma setPositions_raw (scaled : Z → Z) (buffer : list byte) :
  setPositions scaled buffer =
  if decide (length buffer mod 4 = 0)%nat
  then inr (scaled <$> elements buffer)
  else inl RangeError.
Proof.
  unfold setPositions, Int32Array. case_decide; simpl; [|done].
  by rewrite scale_from_all.
Qed.

(** X2. On any response, [setPositions] throws a [RangeError] when the byte
    length is not a multiple of 4 and otherwise returns one scaled integer
    per 4 bytes, in buffer order: the loop visits every element exactly
    once. *)
Theorem setPositions_bytes (scaled : Z → Z) (buffer : list byte) :
  setPositions scaled buffer =
  if decide (length buffer mod 4 = 0)%nat
  then inr (scaled <$> elements buffer)
  else inl RangeError.
Proof. apply setPositions_raw. Qed.

Lemma scaled_by_spec k x :
  int32 (scaled_by k x) ∧
  (scaled_by k x - x * k) mod 2 ^ 32 = 0 ∧
  (int32 (x * k) → scaled_by k x = x * k).
Proof.
  split; [apply to_int32_range|]. split.
  - unfold scaled_by, to_int32. simpl.
    case_decide; Z.div_mod_to_equations; lia.
  - apply to_int32_id.
Qed.

(** X3. With an integral scale factor [k] of magnitude at most 2^21 (for
    which the double product is exact), every decoded position stays a signed
    32-bit integer: it is the product when the product fits, and otherwise
    the product wrapped modulo 2^32; nothing saturates and nothing throws. *)
Theorem setPositions_wraps (k : Z) (buffer : list byte) (a : list Z) :
  - 2 ^ 21 ≤ k ≤ 2 ^ 21 →
  setPositions (scaled_by k) buffer = inr a →
  length a = length (elements buffer) ∧
  ∀ (i : nat) (y : Z), a !! i = Some y →
    ∃ x, elements buffer !! i = Some x ∧
         int32 y ∧ (y - x * k) mod 2 ^ 32 = 0 ∧ (int32 (x * k) → y = x * k).
Proof.
  intros _. rewrite setPositions_raw. case_decide; [|done]. intros [= <-].
  split; [by rewrite length_fmap|].
  intros i y. rewrite list_lookup_fmap.
  destruct (elements buffer !! i) as [x|]; [|done]. simpl. intros [= <-].
  exists x. split; [done|]. apply scaled_by_spec.
Qed.

Lemma setPositions_wraps_witness :
  length [0; 12] = length (elements (buffer_of [1073741824; 3])) ∧
  ∀ (i : nat) (y : Z), [0; 12] !! i = Some y →
    ∃ x, elements (buffer_of [1073741824; 3]) !! i = Some x ∧
         int32 y ∧ (y - x * 4) mod 2 ^ 32 = 0 ∧ (int32 (x * 4) → y = x * 4).
Proof.
  apply (setPositions_wraps 4 (buffer_of [1073741824; 3]) [0; 12]).
  - lia.
  - vm_compute. reflexivity.
Defined.

(** X4. With scale factor 1 the decoded positions are the integers of the
    buffer, unchanged. *)
Theorem setPositions_identity (buffer : list byte) :
  (length buffer mod 4 = 0)%nat →
  setPositions (scaled_by 1) buffer = inr (elements buffer).
Proof.
  intros Hm. rewrite setPositions_raw, decide_True by done. f_equal.
  pose proof (elements_int32 buffer) as Hall.
  induction Hall as [|x l Hx _ IH]; [done|].
  rewrite fmap_cons, IH. f_equal.
  unfold scaled_by. by rewrite Z.mul_1_r, to_int32_id.
Qed.

Lemma setPositions_identity_witness :
  setPositions (scaled_by 1) (buffer_of [5; -7; 9])
  = inr (elements (buffer_of [5; -7; 9])).
Proof.
  apply (setPositions_identity (buffer_of [5; -7; 9])).
  vm_compute. reflexivity.
Defined.

(** * Further properties of the link decoder *)

Lemma declared_nonneg links s : s ∈ declared links → 0 ≤ s.
Proof.
  unfold declared. intros (v & -> & Hv)%list_elem_of_fmap.
  apply list_elem_of_filter in Hv as [Hv _]. lia.
Qed.

Lemma targets_bounds links t :
  t ∈ targets links → ∃ v, v ∈ links ∧ 0 ≤ v ∧ t = v - 1.
Proof.
  unfold targets. intros (v & -> & Hv)%list_elem_of_fmap.
  apply list_elem_of_filter in Hv as [Hv Hin]. eauto.
Qed.

Lemma run_in_snoc links v t :
  default [] (Flat.v_in (Flat.run (links ++ [v])) !! t) =
  default [] (Flat.v_in (Flat.run links) !! t) ++
  (if decide (v < 0) then []
   else if decide (t = v - 1) then [Flat.v_src (Flat.run links)] else []).
Proof.
  rewrite run_snoc. unfold Flat.step. case_decide; simpl.
  - by rewrite app_nil_r.
  - apply inLinks_add_list.
Qed.

Lemma run_in_length links t :
  length (default [] (Flat.v_in (Flat.run links) !! t)) = occ t (targets links).
Proof.
  induction links as [|v links IH] using rev_ind; [done|].
  rewrite run_in_snoc, targets_snoc, length_app, IH.
  case_decide; simpl.
  - by rewrite app_nil_r, Nat.add_0_r.
  - rewrite occ_snoc. repeat case_decide; simpl; congruence.
Qed.

(** [srcIndex] is unassigned exactly while no negative token was read. *)
Lemma run_src links :
  (Flat.v_src (Flat.run links) = undefined ∧ declared links = []) ∨
  (∃ s, Flat.v_src (Flat.run links) = num s ∧ s ∈ declared links).
Proof.
  induction links as [|v links IH] using rev_ind; [by left|].
  rewrite run_snoc, declared_snoc. unfold Flat.step. case_decide; simpl.
  - right. eexists. split; [done|].
    rewrite elem_of_app, list_elem_of_singleton. by right.
  - by rewrite app_nil_r.
Qed.

Lemma begins_non_negative_snoc links v :
  declared links = [] → ¬ v < 0 → begins_non_negative (links ++ [v]).
Proof.
  destruct links as [|u links]; simpl; [lia|].
  unfold declared. rewrite filter_cons. case_decide; [done|lia].
Qed.

Lemma begins_non_negative_app links v :
  begins_non_negative links → begins_non_negative (links ++ [v]).
Proof. by destruct links. Qed.

Lemma run_in_sources links t x :
  x ∈ default [] (Flat.v_in (Flat.run links) !! t) →
  (x = undefined ∧ begins_non_negative links) ∨
  (∃ s, x = num s ∧ s ∈ declared links).
Proof.
  induction links as [|v links IH] using rev_ind.
  - unfold Flat.run. simpl. rewrite lookup_empty. by intros ?%elem_of_nil.
  - rewrite run_in_snoc, declared_snoc, elem_of_app. intros [Hx|Hx].
    + destruct (IH Hx) as [[-> Hb]|(s & -> & Hs)].
      * left. split; [done|]. by apply begins_non_negative_app.
      * right. exists s. split; [done|]. rewrite elem_of_app. by left.
    + case_decide as Hv; [by apply elem_of_nil in Hx|].
      case_decide; [|by apply elem_of_nil in Hx].
      apply list_elem_of_singleton in Hx as ->. rewrite app_nil_r.
      destruct (run_src links) as [[-> Hd]|(s & -> & Hs)].
      * left. split; [done|]. by apply begins_non_negative_snoc.
      * right. eauto.
Qed.

Lemma run_out_elems links k x :
  x ∈ default [] (Flat.v_out (Flat.run links) !! k) → x ∈ targets links.
Proof.
  induction links as [|v links IH] using rev_ind.
  - unfold Flat.run. simpl. destruct (decide (k = 0)) as [->|].
    + rewrite lookup_singleton_eq. by intros ?%elem_of_nil.
    + rewrite lookup_singleton_ne by done. by intros ?%elem_of_nil.
  - rewrite run_snoc, targets_snoc. unfold Flat.step. case_decide; simpl.
    + rewrite app_nil_r, lookup_insert. case_decide; [|done].
      by intros ?%elem_of_nil.
    + rewrite alter_snoc_list by apply run_active.
      rewrite !elem_of_app. intros [Hx|Hx]; [left; by apply IH|].
      case_decide; [by right|by apply elem_of_nil in Hx].
Qed.

Lemma fold_insert_last (pre post : list (Z * list Z)) (o : gmap Z (list Z)) s ts :
  s ∉ post.*1 →
  fold_left (λ o p, <[p.1 := p.2]> o) (pre ++ (s, ts) :: post) o !! s = Some ts.
Proof.
  intros Hs. rewrite fold_left_app. simpl.
  rewrite fold_insert_notin by done. apply lookup_insert_eq.
Qed.

(** X5. After decoding, [outLinks] has an entry exactly at index 0 and at
    every source id declared by a negative token, and [inLinks] has an entry
    exactly at the decremented targets of the non-negative tokens. *)
Theorem setLinks_keys (links : list Z) (k : Z) :
  (is_Some (outLinks (setLinks links) !! k) ↔ k = 0 ∨ k ∈ declared links) ∧
  (is_Some (inLinks (setLinks links) !! k) ↔ k ∈ targets links).
Proof. split; [apply setLinks_out_dom|apply setLinks_in_dom]. Qed.

(** X6. When the stream built from (sourceId, targets) pairs lists a source
    id more than once, [outLinks] of that source is the target list of its
    last pair. *)
Theorem setLinks_last_declaration_wins
    (pre post : list (Z * list Z)) (s : Z) (ts : list Z) :
  node_ids (pre ++ (s, ts) :: post) →
  s ∉ post.*1 →
  out_get (setLinks (encode (pre ++ (s, ts) :: post))) s = Some ts.
Proof.
  intros Hids Hs.
  destruct (fold_encode _ Flat.start Hids) as [Hout _].
  rewrite setLinks_out_get. unfold Flat.run. rewrite Hout.
  by apply fold_insert_last.
Qed.

Lemma setLinks_last_declaration_wins_witness :
  out_get (setLinks (encode ([(0, [1]); (2, [0])] ++ (0, [2; 3]) :: [(1, [])])))
    0 = Some [2; 3].
Proof.
  apply (setLinks_last_declaration_wins [(0, [1]); (2, [0])] [(1, [])] 0 [2; 3]).
  - repeat constructor; simpl; lia.
  - compute_done.
Defined.

(** X7. [inLinks[t]] holds one back-reference per non-negative token whose
    decremented value is [t]; an entry of [inLinks] is never an empty
    array. *)
Theorem setLinks_back_references (links : list Z) (t : Z) :
  length (in_list (setLinks links) t) = occ t (targets links) ∧
  inLinks (setLinks links) !! t ≠ Some [].
Proof.
  assert (length (in_list (setLinks links) t) = occ t (targets links)) as Hlen.
  { rewrite in_list_run. apply run_in_length. }
  split; [done|]. intros Hnil.
  assert (t ∈ targets links) as Ht by (apply setLinks_in_dom; by eexists).
  unfold in_list in Hlen. rewrite Hnil in Hlen. simpl in Hlen.
  unfold occ in Hlen. symmetry in Hlen. apply nil_length_inv in Hlen.
  assert (t ∈ filter (λ y, y = t) (targets links)) as Hin
    by by apply list_elem_of_filter.
  rewrite Hlen in Hin. by apply elem_of_nil in Hin.
Qed.

(** X8. The arrays of [outLinks] are never shared: two different keys hold
    two different arrays, every key holds an array that exists, and
    [lastArray] is the array of the source declared last (of key 0 before any
    declaration). *)
Theorem setLinks_no_aliasing (links : list Z) :
  (∀ k1 k2 l, outLinks (setLinks links) !! k1 = Some l →
              outLinks (setLinks links) !! k2 = Some l → k1 = k2) ∧
  (∀ k l, outLinks (setLinks links) !! k = Some l →
          is_Some (heap (setLinks links) !! l)) ∧
  outLinks (setLinks links) !! Flat.active (srcIndex (setLinks links))
    = Some (lastArray (setLinks links)).
Proof.
  destruct (setLinks_wf links) as [Hlast Hbound Hinj].
  split; [done|]. split; [|done].
  intros k l Hk. apply lookup_lt_is_Some. by eapply Hbound.
Qed.

Lemma setLinks_no_aliasing_witness :
  is_Some (heap (setLinks [-1; 2; -3; 1]) !! 2%nat) ∧
  outLinks (setLinks [-1; 2; -3; 1]) !! 2 = Some 2%nat.
Proof.
  destruct (setLinks_no_aliasing [-1; 2; -3; 1]) as (_ & Hheap & Hlast).
  split; [|exact Hlast]. apply (Hheap 2). reflexivity.
Defined.

(** X9. [inLinks] only grows: the back-references recorded after a prefix
    of the stream are a prefix of those recorded after the whole stream. *)
Theorem setLinks_inLinks_append_only (l1 l2 : list Z) (t : Z) :
  in_list (setLinks l1) t `prefix_of` in_list (setLinks (l1 ++ l2)) t.
Proof.
  induction l2 as [|v l2 IH] using rev_ind.
  - by rewrite app_nil_r.
  - rewrite (assoc_L (++)), (in_list_run (_ ++ [v])), run_in_snoc, <- in_list_run.
    by apply prefix_app_r.
Qed.

(** X10. Every source recorded in [inLinks] is a source id declared by a
    negative token of the stream, hence non-negative, or is [undefined];
    [undefined] is recorded only when the stream starts with a non-negative
    token. *)
Theorem setLinks_recorded_sources (links : list Z) (t : Z) (x : jsval) :
  x ∈ in_list (setLinks links) t →
  (x = undefined ∧ begins_non_negative links) ∨
  (∃ s, x = num s ∧ s ∈ declared links ∧ 0 ≤ s).
Proof.
  rewrite in_list_run. intros [?|(s & -> & Hs)]%run_in_sources; [by left|].
  right. exists s. split; [done|]. split; [done|]. by eapply declared_nonneg.
Qed.

Lemma setLinks_recorded_sources_witness :
  (undefined = undefined ∧ begins_non_negative [3; -1; 3]) ∨
  (∃ s, undefined = num s ∧ s ∈ declared [3; -1; 3] ∧ 0 ≤ s).
Proof.
  apply (setLinks_recorded_sources [3; -1; 3] 2 undefined).
  vm_compute. apply list_elem_of_here.
Defined.

(** X11. For a stream of signed 32-bit tokens every index in the result is
    in range: keys of [outLinks] lie in [0, 2^31 - 1], and targets in
    [outLinks] and keys of [inLinks] lie in [-1, 2^31 - 2]; the value -1
    occurs only when the stream has a zero token. *)
Theorem setLinks_index_ranges (links : list Z) :
  Forall int32 links →
  (∀ k, is_Some (outLinks (setLinks links) !! k) → 0 ≤ k < 2 ^ 31) ∧
  (∀ k x, x ∈ out_list (setLinks links) k →
     - 1 ≤ x < 2 ^ 31 - 1 ∧ (0 ∉ links → 0 ≤ x)) ∧
  (∀ t, is_Some (inLinks (setLinks links) !! t) →
     - 1 ≤ t < 2 ^ 31 - 1 ∧ (0 ∉ links → 0 ≤ t)).
Proof.
  intros Hall. rewrite Forall_forall in Hall.
  assert (∀ t, t ∈ targets links →
            - 1 ≤ t < 2 ^ 31 - 1 ∧ (0 ∉ links → 0 ≤ t)) as Htargets.
  { intros t (v & Hin & Hv & ->)%targets_bounds.
    pose proof (Hall v Hin) as Hr. unfold int32 in Hr. split; [lia|].
    intros H0. destruct (decide (v = 0)) as [->|]; [done|lia]. }
  split; [|split].
  - intros k [->|Hk]%setLinks_out_dom; [lia|].
    unfold declared in Hk. apply list_elem_of_fmap in Hk as (v & -> & Hv).
    apply list_elem_of_filter in Hv as [Hv Hin].
    pose proof (Hall v Hin) as Hr. unfold int32 in Hr. lia.
  - intros k x. rewrite out_list_run. intros Hx%run_out_elems. by apply Htargets.
  - intros t Ht%setLinks_in_dom. by apply Htargets.
Qed.

Lemma setLinks_index_ranges_witness :
  - 1 ≤ -1 < 2 ^ 31 - 1 ∧ (0 ∉ [-1; 2; 0] → 0 ≤ -1).
Proof.
  destruct (setLinks_index_ranges [-1; 2; 0]) as (_ & _ & Hin).
  - repeat constructor; unfold int32; lia.
  - apply (Hin (-1)). vm_compute. by eexists.
Defined.

(** X12. A stream without negative tokens declares no source: all its
    targets go, in order, to the array stored at [outLinks[0]] before the
    loop, [srcIndex] stays unassigned, and every recorded source is
    [undefined]. *)
Theorem setLinks_without_declaration (links : list Z) :
  Forall (λ v, 0 ≤ v) links →
  out_view (setLinks links) = {[0 := targets links]} ∧
  srcIndex (setLinks links) = undefined ∧
  (∀ t x, x ∈ in_list (setLinks links) t → x = undefined).
Proof.
  intros Hall.
  assert (declared links = []) as Hd.
  { unfold declared. induction Hall as [|v l Hv _ IH]; [done|].
    rewrite filter_cons, decide_False by lia. done. }
  assert (Flat.v_out (Flat.run links) = {[0 := targets links]} ∧
          Flat.v_src (Flat.run links) = undefined) as [Hout Hsrc].
  { clear Hd. revert Hall.
    induction links as [|v l IH] using rev_ind; intros Hall; [done|].
    apply Forall_app in Hall as [Hl Hv]. rewrite Forall_singleton in Hv.
    destruct (IH Hl) as [IHo IHs].
    rewrite run_snoc, targets_snoc. unfold Flat.step.
    rewrite !decide_False by lia. simpl.
    by rewrite IHo, IHs, alter_singleton_eq. }
  split; [|split].
  - by rewrite <- Hout, <- setLinks_view.
  - by rewrite setLinks_srcIndex.
  - intros t x. rewrite in_list_run.
    intros [[? _]|(s & _ & Hs)]%run_in_sources; [done|].
    rewrite Hd in Hs. by apply elem_of_nil in Hs.
Qed.

Lemma setLinks_without_declaration_witness :
  out_view (setLinks [3; 1; 3]) = {[0 := targets [3; 1; 3]]} ∧
  srcIndex (setLinks [3; 1; 3]) = undefined ∧
  (∀ t x, x ∈ in_list (setLinks [3; 1; 3]) t → x = undefined).
Proof.
  apply (setLinks_without_declaration [3; 1; 3]).
  repeat constructor; lia.
Defined.

(** * Further properties of version resolution *)

Lemma version_of_cases (p : option string) (m : Version.Manifest) :
  ∃ v, Version.version_of p (Some m) = inr v ∧
       (v = Version.last m ∨
        (p = Some v ∧ v ≠ "" ∧
         ∃ approved, Version.all m = Some approved ∧ v ∈ approved)).
Proof.
  destruct m as [lastv allv]. unfold Version.version_of, Version.getFromAppConfig.
  simpl. destruct allv as [approved|]; [|by eexists; split; [|left]].
  destruct p as [v|]; [|by eexists; split; [|left]].
  destruct (Version.truthy v) eqn:Hv; [|by eexists; split; [|left]].
  case_decide as Hi; [|by eexists; split; [|left]].
  rewrite Hv. exists v. split; [done|]. right. split; [done|].
  split; [by intros ->|]. exists approved. split; [done|].
  by apply indexOf_found.
Qed.

(** X13. With a manifest, version resolution never fails, and the version it
    yields is the last version or else the pinned version, which is then
    non-empty and listed in [all]: a pinned version that is not approved is
    never let through. *)
Theorem version_of_whitelist (p : option string) (m : Version.Manifest) :
  ∃ v, Version.version_of p (Some m) = inr v ∧
       (v = Version.last m ∨
        (p = Some v ∧ v ≠ "" ∧
         ∃ approved, Version.all m = Some approved ∧ v ∈ approved)).
Proof. apply version_of_cases. Qed.

Lemma version_of_approved (m : Version.Manifest) v approved :
  v ≠ "" → Version.all m = Some approved → v ∈ approved →
  Version.version_of (Some v) (Some m) = inr v.
Proof.
  intros Hne Hall Hin. destruct m as [lastv allv]. simpl in Hall. subst allv.
  unfold Version.version_of, Version.getFromAppConfig. simpl.
  rewrite (truthy_nonempty v Hne).
  rewrite decide_True by by apply indexOf_found.
  by rewrite (truthy_nonempty v Hne).
Qed.

(** X14. Resolution is stable: the version a load resolves and writes back
    to [appConfig] is resolved to itself by a later load of the same
    manifest. *)
Theorem version_of_stable (p : option string) (m : Version.Manifest) (v : string) :
  Version.version_of p (Some m) = inr v →
  Version.version_of (Some v) (Some m) = inr v.
Proof.
  destruct (version_of_cases p m) as (v' & Hv' & Hcase).
  rewrite Hv'. intros [= <-]. clear Hv'.
  destruct Hcase as [->|(_ & Hne & approved & Hall & Hin)].
  - destruct (version_of_cases (Some (Version.last m)) m)
      as (w & Hw & [->|([= <-] & _)]); done.
  - by eapply version_of_approved.
Qed.

Lemma version_of_stable_witness :
  Version.version_of (Some "v2") (Some Sample.manifest_g) = inr "v2".
Proof.
  apply (version_of_stable (Some "v3") Sample.manifest_g "v2"). reflexivity.
Defined.

(** * Further properties of the load pipeline *)

Section PipelineRuns.

Import Pipeline.

Variable dataUrl : string.
Variable now : string.
Variable request_manifest : string → result (option Version.Manifest).
Variable request_arraybuffer : string → result (list byte).
Variable request_labels : string → result (list string).
Variable scaled : Z → Z.
Variable Graph : Type.
Variable createGraph : GraphData → Graph.

Local Abbreviation loadGraph :=
  (Pipeline.loadGraph dataUrl now request_manifest request_arraybuffer
     request_labels scaled Graph createGraph).

Ltac run_unfold :=
  unfold Pipeline.loadGraph, Pipeline.chain, then_, loadManifest,
    loadPositions, loadLinks, loadLabels, then_, request, setManifest,
    setPositions_handler, setLinks_handler, setLabels, convertToGraph, init;
  simpl.

Ltac run_case :=
  match goal with
  | |- context [match ?x with inl _ => _ | inr _ => _ end] =>
      destruct x eqn:?; simpl
  end.

(** X15. The events of every run are an initial part of the sequence
    manifest request, version written, positions request, positions event,
    links request, links event, labels request, labels event.  A run that
    produces a graph went through the whole sequence; a run that fails
    stopped right after a request, before the event of that file. *)
Theorem loadGraph_sequence (name : string) (pinned : option string) :
  ∃ n : nat,
    Log.tag <$> events (loadGraph name pinned).2 = take n Log.full ∧
    (∀ g, (loadGraph name pinned).1 = inr g → n = 8%nat) ∧
    (∀ e, (loadGraph name pinned).1 = inl e →
       n = 1%nat ∨ n = 3%nat ∨ n = 5%nat ∨ n = 7%nat).
Proof.
  run_unfold. repeat run_case;
    first [ by exists 1%nat; split; [|split; [|intros; tauto]]
          | by exists 3%nat; split; [|split; [|intros; tauto]]
          | by exists 5%nat; split; [|split; [|intros; tauto]]
          | by exists 7%nat; split; [|split; [|intros; tauto]]
          | by exists 8%nat ].
Qed.

(** X16. When every request succeeds and both buffers have a byte length
    that is a multiple of 4, [loadGraph] passes to [createGraph] the scaled
    positions, the labels as received and the mappings decoded from the links
    buffer; the three data files are requested under the resolved version,
    which is written back to [appConfig]. *)
Theorem loadGraph_success_result (name : string) (pinned : option string)
    (m : Version.Manifest) (v : string) (pbuf lbuf : list byte)
    (ps ls : list Z) (data : list string) :
  request_manifest ((dataUrl +:+ name) +:+ "/manifest.json?nocache=" +:+ now)
    = inr (Some m) →
  Version.version_of pinned (Some m) = inr v →
  request_arraybuffer (((dataUrl +:+ name) +:+ "/" +:+ v) +:+ "/positions.bin")
    = inr pbuf →
  Int32Array pbuf = inr ps →
  request_arraybuffer (((dataUrl +:+ name) +:+ "/" +:+ v) +:+ "/links.bin")
    = inr lbuf →
  Int32Array lbuf = inr ls →
  request_labels (((dataUrl +:+ name) +:+ "/" +:+ v) +:+ "/labels.json")
    = inr data →
  loadGraph name pinned =
    (inr (createGraph
            {| g_positions := Some (scaled <$> ps);
               g_labels := Some data;
               g_outLinks := out_view (setLinks ls);
               g_inLinks := inLinks (setLinks ls) |}),
     {| manifest := Some m;
        galaxyEndpoint := (dataUrl +:+ name) +:+ "/" +:+ v;
        positions := Some (scaled <$> ps);
        labels := Some data;
        links := setLinks ls;
        manifestVersion := Some v;
        events :=
          [Requested ManifestFile
             ((dataUrl +:+ name) +:+ "/manifest.json?nocache=" +:+ now);
           ManifestVersionSet v;
           Requested PositionsFile
             (((dataUrl +:+ name) +:+ "/" +:+ v) +:+ "/positions.bin");
           PositionsDownloaded (scaled <$> ps);
           Requested LinksFile
             (((dataUrl +:+ name) +:+ "/" +:+ v) +:+ "/links.bin");
           LinksDownloaded (out_view (setLinks ls)) (inLinks (setLinks ls));
           Requested LabelsFile
             (((dataUrl +:+ name) +:+ "/" +:+ v) +:+ "/labels.json");
           LabelsDownloaded data] |}).
Proof.
  intros Hm Hv Hp Hps Hl Hls Hd.
  assert (Positions.setPositions scaled pbuf = inr (scaled <$> ps)) as Hsp.
  { unfold Positions.setPositions. rewrite Hps. simpl. by rewrite scale_from_all. }
  run_unfold. rewrite Hm. simpl. rewrite Hv. simpl.
  rewrite Hp. simpl. rewrite Hsp. simpl.
  rewrite Hl. simpl. rewrite Hls. simpl.
  rewrite Hd. simpl. done.
Qed.

(** X17. A [null] manifest response makes [loadGraph] fail with a
    [TypeError] after this one request: nothing is written to [appConfig],
    the endpoint is not extended and no data file is requested. *)
Theorem loadGraph_null_manifest (name : string) (pinned : option string) :
  request_manifest ((dataUrl +:+ name) +:+ "/manifest.json?nocache=" +:+ now)
    = inr None →
  loadGraph name pinned =
    (inl TypeError,
     {| manifest := None; galaxyEndpoint := dataUrl +:+ name;
        positions := None; labels := None; links := fresh;
        manifestVersion := pinned;
        events :=
          [Requested ManifestFile
             ((dataUrl +:+ name) +:+ "/manifest.json?nocache=" +:+ now)] |}).
Proof.
  intros Hm. run_unfold. rewrite Hm. simpl.
  unfold Version.version_of, Version.getFromAppConfig. simpl.
  by destruct pinned.
Qed.

(** X18. [appConfig] is written only with the resolved version: when a run
    wrote a version, that version is the one resolved from the manifest
    response and the pinned version, it is the version [appConfig] holds
    afterwards, and the endpoint was extended by it; when a run wrote none,
    [appConfig] and the endpoint are as before. *)
Theorem loadGraph_version_written (name : string) (pinned : option string) :
  (∀ v, ManifestVersionSet v ∈ events (loadGraph name pinned).2 →
     manifestVersion (loadGraph name pinned).2 = Some v ∧
     galaxyEndpoint (loadGraph name pinned).2 = (dataUrl +:+ name) +:+ "/" +:+ v ∧
     ∃ response,
       request_manifest
         ((dataUrl +:+ name) +:+ "/manifest.json?nocache=" +:+ now)
         = inr response ∧
       Version.version_of pinned response = inr v) ∧
  ((∀ v, ManifestVersionSet v ∉ events (loadGraph name pinned).2) →
     manifestVersion (loadGraph name pinned).2 = pinned ∧
     galaxyEndpoint (loadGraph name pinned).2 = dataUrl +:+ name).
Proof.
  run_unfold. repeat run_case; (split; [intros v Hin|intros Hnone]);
    repeat match goal with
      | H : _ ∈ [] |- _ => by apply elem_of_nil in H
      | H : _ ∈ _ :: _ |- _ => apply elem_of_cons in H as [H|H]; try discriminate H
      end;
    try match goal with
      | H : ManifestVersionSet _ = ManifestVersionSet _ |- _ =>
          injection H as ->; by eauto
      end;
    try done;
    exfalso; eapply Hnone; rewrite !elem_of_cons; eauto.
Qed.

(** X19. A failing run fails with the error of a request that was rejected,
    with the [RangeError] of a buffer view, or with the [TypeError] of a
    [null] manifest; it raises no error of its own making. *)
Theorem loadGraph_error_origin (name : string) (pinned : option string)
    (e : Error) :
  (loadGraph name pinned).1 = inl e →
  e = TypeError ∨ e = RangeError ∨
  ∃ url, request_manifest url = inl e ∨ request_arraybuffer url = inl e ∨
         request_labels url = inl e.
Proof.
  run_unfold. repeat run_case; intros [= <-]; eauto 6.
  - left. match goal with
          | H : Version.version_of _ _ = inl _ |- _ =>
              unfold Version.version_of, Version.manifest_last in H;
              repeat case_match; congruence
          end.
  - right. left. by eapply setPositions_error.
  - right. left. match goal with
                 | H : Int32Array _ = inl _ |- _ =>
                     unfold Int32Array in H; case_decide; congruence
                 end.
Qed.

End PipelineRuns.

Lemma loadGraph_sequence_witness :
  ∃ n : nat,
    Log.tag <$> Pipeline.events (Sample.load "g" (Some "v1")).2
      = take n Log.full ∧
    (∀ g, (Sample.load "g" (Some "v1")).1 = inr g → n = 8%nat) ∧
    (∀ e, (Sample.load "g" (Some "v1")).1 = inl e →
       n = 1%nat ∨ n = 3%nat ∨ n = 5%nat ∨ n = 7%nat).
Proof.
  exact (loadGraph_sequence "data/" "0" Sample.serve_manifest
           Sample.serve_arraybuffer Sample.serve_labels (scaled_by 1)
           Pipeline.GraphData id "g" (Some "v1")).
Defined.

Lemma loadGraph_success_result_witness :
  (Served.load "g" (Some "v1")).1 =
  inr {| Pipeline.g_positions := Some [10; 20; 30];
         Pipeline.g_labels := Some ["a"];
         Pipeline.g_outLinks := {[0 := [1; 2]; 1 := [0]]};
         Pipeline.g_inLinks := {[0 := [num 1]; 1 := [num 0]; 2 := [num 0]]} |}.
Proof.
  unfold Served.load.
  rewrite (loadGraph_success_result "data/" "0" Sample.serve_manifest
             Served.serve_arraybuffer Sample.serve_labels (scaled_by 1)
             Pipeline.GraphData id "g" (Some "v1") Sample.manifest_g "v1"
             (buffer_of [10; 20; 30]) (buffer_of [-1; 2; 3; -2; 1])
             [10; 20; 30] [-1; 2; 3; -2; 1] ["a"]).
  - vm_compute. reflexivity.
  - reflexivity.
  - reflexivity.
  - reflexivity.
  - vm_compute. reflexivity.
  - reflexivity.
  - vm_compute. reflexivity.
  - reflexivity.
Defined.

Lemma loadGraph_null_manifest_witness :
  (Served.load_null "g" (Some "v1")).1 = inl TypeError ∧
  Pipeline.manifestVersion (Served.load_null "g" (Some "v1")).2 = Some "v1".
Proof.
  unfold Served.load_null.
  rewrite (loadGraph_null_manifest "data/" "0" Served.serve_null
             Served.serve_arraybuffer Sample.serve_labels (scaled_by 1)
             Pipeline.GraphData id "g" (Some "v1")).
  - split; reflexivity.
  - reflexivity.
Defined.

Lemma loadGraph_version_written_witness :
  Pipeline.manifestVersion (Served.load "g" (Some "v3")).2 = Some "v2" ∧
  Pipeline.galaxyEndpoint (Served.load "g" (Some "v3")).2 = "data/g/v2".
Proof.
  destruct (proj1 (loadGraph_version_written "data/" "0" Sample.serve_manifest
                     Served.serve_arraybuffer Sample.serve_labels (scaled_by 1)
                     Pipeline.GraphData id "g" (Some "v3")) "v2")
    as (Hv & Hep & _).
  - vm_compute. apply list_elem_of_further, list_elem_of_here.
  - split; [exact Hv|exact Hep].
Defined.

Lemma loadGraph_error_origin_witness :
  TransportFailure "503" = TypeError ∨ TransportFailure "503" = RangeError ∨
  ∃ url, Sample.serve_manifest url = inl (TransportFailure "503") ∨
         Sample.serve_arraybuffer url = inl (TransportFailure "503") ∨
         Sample.serve_labels url = inl (TransportFailure "503").
Proof.
  apply (loadGraph_error_origin "data/" "0" Sample.serve_manifest
           Sample.serve_arraybuffer Sample.serve_labels (scaled_by 1)
           Pipeline.GraphData id "g" (Some "v1")).
  vm_compute. reflexivity.
Defined.
